(** * view: a template registry over a directory tree

    Shallow embedding of [view.go] (package [view]): the [Views] registry,
    its compile pass [ParseTemplates] built on [filepath.Walk], the name
    derivation [TemplateName], the two render entry points and the reload
    toggle.

    Conventions.
    - Go strings are [string]; [len] and slice bounds are [Z], as Go's [int],
      so that the bound [len(s)-len(v.tmplExt)] can be negative.
    - A Go [error] value is [option error] ([None] is [nil]).
    - A run-time panic is an outcome of its own ([Panicked]); it is neither a
      normal return nor an error value.
    - The template engine ([html/template]) is an interface ([Engine]); the
      file system is a tree of entries ([node]). *)

From Stdlib Require Import Bool Ascii String List ZArith Lia.
Import ListNotations.

Local Open Scope string_scope.
Local Open Scope Z_scope.
Local Open Scope list_scope.

(** ** Go's [strings] package, as far as [TemplateName] uses it *)

Module strings.

Definition len (s : string) : Z := Z.of_nat (String.length s).

(** Membership of a byte in a cutset. *)
Fixpoint ContainsByte (cutset : string) (c : ascii) : bool :=
  match cutset with
  | EmptyString => false
  | String d cutset' => Ascii.eqb c d || ContainsByte cutset' c
  end.

(** [strings.TrimLeft(s, cutset)]: drop the leading bytes that are in
    [cutset]. *)
Fixpoint TrimLeft (s cutset : string) : string :=
  match s with
  | EmptyString => EmptyString
  | String c s' => if ContainsByte cutset c then TrimLeft s' cutset else s
  end.

(** [strings.TrimRight(s, cutset)]: drop the trailing bytes that are in
    [cutset]. *)
Fixpoint TrimRight (s cutset : string) : string :=
  match s with
  | EmptyString => EmptyString
  | String c s' =>
      match TrimRight s' cutset with
      | EmptyString =>
          if ContainsByte cutset c then EmptyString else String c EmptyString
      | r => String c r
      end
  end.

(** [strings.Trim(s, cutset)]; Go trims the right end first. *)
Definition Trim (s cutset : string) : string :=
  TrimLeft (TrimRight s cutset) cutset.

Fixpoint HasPrefix (s p : string) : bool :=
  match p, s with
  | EmptyString, _ => true
  | String _ _, EmptyString => false
  | String a p', String b s' => Ascii.eqb a b && HasPrefix s' p'
  end.

(** [strings.Index(s, substr)]: index of the first instance, or [-1]. *)
Fixpoint Index (s substr : string) : Z :=
  if HasPrefix s substr then 0
  else match s with
       | EmptyString => -1
       | String _ s' =>
           let i := Index s' substr in
           if i <? 0 then -1 else 1 + i
       end.

(** Total slices used inside the library: [s[:n]] and [s[n:]] for an [n]
    known to be within bounds. *)
Fixpoint take (n : nat) (s : string) : string :=
  match n, s with
  | S n', String c s' => String c (take n' s')
  | _, _ => EmptyString
  end.

Fixpoint drop (n : nat) (s : string) : string :=
  match n, s with
  | S n', String _ s' => drop n' s'
  | _, _ => s
  end.

(** [strings.Replace(s, old, new, 1)]: the first instance of [old]
    replaced by [new].  Go returns [s] itself when [old == new] and when
    [old] does not occur; an empty [old] matches at the beginning. *)
Definition Replace1 (s old new : string) : string :=
  if String.eqb old new then s
  else
    let j := Index s old in
    if j <? 0 then s
    else (take (Z.to_nat j) s
          ++ new
          ++ drop (Z.to_nat j + String.length old) s)%string.

End strings.

(** A slice expression [s[:hi]] of the program itself: it panics ([None])
    unless [0 <= hi <= len(s)]. *)
Definition slice_to (s : string) (hi : Z) : option string :=
  if (0 <=? hi) && (hi <=? strings.len s)
  then Some (strings.take (Z.to_nat hi) s)
  else None.

(** ** Go's [path/filepath] package (Unix), as far as the walk uses it *)

Module filepath.

Definition slash : ascii := "/"%char.
Definition dot : ascii := "."%char.

(** [filepath.Ext(path)]: the suffix beginning at the final dot in the
    final element of [path]; empty if there is no dot.  [ext_scan acc r]
    is Go's loop: [r] is the part of the path still to be examined, last
    byte first, and [acc] is the part already passed. *)
Fixpoint ext_scan (acc : string) (r : list ascii) : string :=
  match r with
  | [] => EmptyString
  | c :: r' =>
      if Ascii.eqb c slash then EmptyString
      else if Ascii.eqb c dot then String c acc
      else ext_scan (String c acc) r'
  end.

Definition Ext (path : string) : string :=
  ext_scan EmptyString (rev (list_ascii_of_string path)).

(** The elements of a path between its separators. *)
Fixpoint split (s : string) : list string :=
  match s with
  | EmptyString => [EmptyString]
  | String c s' =>
      if Ascii.eqb c slash then EmptyString :: split s'
      else match split s' with
           | [] => [String c EmptyString]
           | x :: xs => String c x :: xs
           end
  end.

(** One element processed by [Clean]; [stack] holds the elements written
    so far, last one first. *)
Definition clean_step (rooted : bool) (stack : list string) (elem : string)
  : list string :=
  if String.eqb elem EmptyString || String.eqb elem "." then stack
  else if String.eqb elem ".." then
    match stack with
    | top :: rest =>
        if String.eqb top ".." then elem :: stack else rest
    | [] => if rooted then [] else [elem]
    end
  else elem :: stack.

(** [filepath.Clean(path)]: the shortest path name equivalent to [path]
    by purely lexical processing. *)
Definition Clean (path : string) : string :=
  match path with
  | EmptyString => "."
  | String c _ =>
      let rooted := Ascii.eqb c slash in
      let stack := fold_left (clean_step rooted) (split path) [] in
      let body := String.concat "/" (rev stack) in
      let out := if rooted then String slash body else body in
      if String.eqb out EmptyString then "." else out
  end.

(** [filepath.Join(dir, name)] for two elements: empty elements are
    ignored and the result is cleaned. *)
Definition Join (dir name : string) : string :=
  if String.eqb dir EmptyString then
    if String.eqb name EmptyString then EmptyString else Clean name
  else Clean (dir ++ "/" ++ name)%string.

End filepath.

(** ** Errors, panics and the observable events of a run *)

(** Go [error] values the program can meet: a [*os.PathError] of the file
    system (its operation and path) or an error of the template engine.
    None of them is [filepath.SkipDir], so the walk never skips on them. *)
Inductive error : Type :=
| PathError (op path : string)
| TemplateError (msg : string).

(** Run-time panics. *)
Inductive panic : Type :=
| NilDereference     (* method call through a nil pointer or nil interface *)
| SliceBounds.       (* slice bounds out of range *)

Inductive outcome (A : Type) : Type :=
| Done (a : A)
| Panicked (p : panic).
Arguments Done {A} a.
Arguments Panicked {A} p.

(** What a run does, in program order: log lines, operations on the mutex
    [v.mu], accesses to the two mutable fields of [Views], file-system
    calls, and calls into the template engine. *)
Inductive event : Type :=
| Log (e : error)                 (* log.Println("Err while walking ...", err) *)
| Lock | Unlock                   (* v.mu.Lock() / v.mu.Unlock() *)
| ReadReload | WriteReload        (* v.reload *)
| ReadTmpls | WriteTmpls          (* v.tmpls *)
| Lstat (path : string)           (* os.Lstat *)
| ReadDirNames (path : string)    (* readDirNames *)
| ReadFile (path : string)        (* ioutil.ReadFile *)
| Parse (name : string)           (* t.New(name).Parse(text) *)
| Render.                         (* tmpls.ExecuteTemplate / tmpls.Execute *)

(** ** The template engine *)

(** [html/template], which the program only calls.  [Template] is what a
    [*template.Template] denotes: a template together with the name space
    it shares with its associates. *)
Class Engine : Type := {
  Template : Type;
  Tree : Type;
  Data : Type;
  (** [template.New(name)] *)
  template_New : string -> Template;
  (** [t.New(name).Parse(text)]: the new current template, or the message
      of the parse error. *)
  New_Parse : Template -> string -> string -> string + Template;
  (** [t.Lookup(name)]: the tree of the template of that name; [None]
      when there is no such template, or when it has no tree yet, as the
      template that [template.New] returns. *)
  Lookup : Template -> string -> option Tree;
  (** [t.ExecuteTemplate(w, name, data)]: the bytes written to [w] and the
      error returned. *)
  Template_ExecuteTemplate : Template -> string -> Data -> string * option error;
  (** [t.Execute(w, data)] *)
  Template_Execute : Template -> Data -> string * option error
}.

(** ** The file system *)

(** What [ioutil.ReadFile] makes of an entry: its bytes, or the operation
    of the [*os.PathError] it fails with, [open] when the entry cannot be
    opened and [read] when it can be opened but not read (a directory, a
    symbolic link to one). *)
Inductive read_result : Type :=
| Bytes (b : string)
| Fails (op : string).

(** What [os.Lstat] reports for an entry, together with what
    [ioutil.ReadFile] would return for it. *)
Record FileInfo : Type := {
  IsDir : bool;
  contents : read_result
}.

(** An entry of the tree below (and including) the root path. *)
#[local] Unset Elimination Schemes.
Inductive node : Type :=
| Missing                              (* os.Lstat fails: there is no FileInfo *)
| File (content : read_result)         (* anything that is not a directory *)
| BadDir                               (* a directory whose listing fails *)
| Dir (entries : list (string * node)).
#[local] Set Elimination Schemes.

Definition info_of (n : node) : option FileInfo :=
  match n with
  | Missing => None
  | File c => Some {| IsDir := false; contents := c |}
  | BadDir | Dir _ => Some {| IsDir := true; contents := Fails "read" |}
  end.

(** [readDirNames] returns the names of a directory sorted
    ([slices.Sort]); [lexical] puts every listing of the tree in that
    order, so that the walk below can follow the listings as they are. *)
Fixpoint insert_entry (e : string * node) (es : list (string * node))
  : list (string * node) :=
  match es with
  | [] => [e]
  | x :: xs =>
      if String.leb (fst e) (fst x) then e :: es else x :: insert_entry e xs
  end.

Definition sort_entries (es : list (string * node)) : list (string * node) :=
  fold_right insert_entry [] es.

Fixpoint lexical (n : node) : node :=
  match n with
  | Dir es => Dir (sort_entries (map (fun e => (fst e, lexical (snd e))) es))
  | _ => n
  end.

(** ** Effects *)

Class Monad (F : Type -> Type) : Type := {
  ret : forall {A : Type}, A -> F A;
  bind : forall {A B : Type}, F A -> (A -> F B) -> F B
}.

Notation "x <- m ;; k" := (bind m (fun x => k))
  (at level 61, m at next level, right associativity).
Notation "m ;; k" := (bind m (fun _ => k))
  (at level 61, right associativity).

(** Code that touches nothing of the registry but only calls out (file
    system, log, engine): its events and its outcome. *)
Definition IO (A : Type) : Type := list event * outcome A.

#[export] Instance IO_Monad : Monad IO := {
  ret A a := ([], Done a);
  bind A B m k :=
    match m with
    | (evs, Done a) => (evs ++ fst (k a), snd (k a))
    | (evs, Panicked p) => (evs, Panicked p)
    end
}.

Definition emit (e : event) : IO unit := ([e], Done tt).

Definition raise {A : Type} (p : panic) : IO A := ([], Panicked p).

(** *** [filepath.Walk] *)

(** A [filepath.WalkFunc] closing over a variable of type [A]. *)
Definition WalkFunc (A : Type) : Type :=
  A -> string -> option FileInfo -> option error -> IO (A * option error).

(** [walk] visits the entry [n] found at [path]: it calls [walkFn] on it
    and, for a directory that could be listed, descends into its entries in
    the order of the listing.  An entry whose [os.Lstat] fails is handed to
    [walkFn] with a nil [FileInfo]; a directory whose listing fails is
    handed to it with that error.  The first non-nil error that [walkFn]
    returns ends the walk and is the walk's result. *)
Fixpoint walk {A : Type} (walkFn : WalkFunc A) (path : string) (n : node)
  (a : A) {struct n} : IO (A * option error) :=
  emit (Lstat path) ;;
  match n with
  | Missing => walkFn a path None (Some (PathError "lstat" path))
  | File _ => walkFn a path (info_of n) None
  | BadDir =>
      emit (ReadDirNames path) ;;
      walkFn a path (info_of n) (Some (PathError "open" path))
  | Dir entries =>
      emit (ReadDirNames path) ;;
      r <- walkFn a path (info_of n) None ;;
      match snd r with
      | Some err1 => ret r
      | None =>
          (fix each (es : list (string * node)) (a : A)
             : IO (A * option error) :=
             match es with
             | [] => ret (a, None)
             | e :: es' =>
                 r <- walk walkFn (filepath.Join path (fst e)) (snd e) a ;;
                 match snd r with
                 | Some err => ret r
                 | None => each es' (fst r)
                 end
             end) entries (fst r)
      end
  end.

(** [filepath.Walk(root, walkFn)] on the tree [fs] found at [root]. *)
Definition Walk {A : Type} (root : string) (fs : node) (walkFn : WalkFunc A)
  (a : A) : IO (A * option error) :=
  walk walkFn root (lexical fs) a.

Definition ioutil_ReadFile (path : string) (info : FileInfo)
  : IO (error + string) :=
  emit (ReadFile path) ;;
  match contents info with
  | Bytes b => ret (inr b)
  | Fails op => ret (inl (PathError op path))
  end.

(** ** The registry *)

Section Registry.

Context {E : Engine}.

Inductive Mutex : Type := NewMutex.

Record Views : Type := {
  reload : bool;
  path : string;
  tmplExt : string;
  tmpls : option Template;      (* a *template.Template, [None] is nil *)
  mu : option Mutex             (* a *sync.Mutex, [None] is nil *)
}.

Definition set_reload (f : bool) (v : Views) : Views :=
  {| reload := f; path := path v; tmplExt := tmplExt v;
     tmpls := tmpls v; mu := mu v |}.

Definition set_tmpls (t : option Template) (v : Views) : Views :=
  {| reload := reload v; path := path v; tmplExt := tmplExt v;
     tmpls := t; mu := mu v |}.

(** A method of [*Views] runs on the registry and adds to the events. *)
Record State : Type := {
  self : Views;
  trace : list event
}.

Definition M (A : Type) : Type := State -> State * outcome A.

#[export] Instance M_Monad : Monad M := {
  ret A a := fun st => (st, Done a);
  bind A B m k := fun st =>
    match m st with
    | (st', Done a) => k a st'
    | (st', Panicked p) => (st', Panicked p)
    end
}.

Definition lift {A : Type} (io : IO A) : M A :=
  fun st => ({| self := self st; trace := trace st ++ fst io |}, snd io).

Definition get_self : M Views := fun st => (st, Done (self st)).

Definition modify (f : Views -> Views) : M unit :=
  fun st => ({| self := f (self st); trace := trace st |}, Done tt).

(** The state a method leaves and what it returns. *)
Definition after {A : Type} (m : M A) (st : State) : State := fst (m st).
Definition result {A : Type} (m : M A) (st : State) : outcome A := snd (m st).

(** The events a method adds. *)
Definition events {A : Type} (m : M A) (st : State) : list event :=
  skipn (List.length (trace st)) (trace (after m st)).

(** ** The program *)

(** [TemplateName] returns the file name relative to the template folder
    without the template file extension or leading slashes.  [None]: the
    final slice expression panics. *)
Definition TemplateName (v : Views) (s : string) : option string :=
  (* Folder name without dots or (back-)slashes *)
  let cf := strings.Trim (path v) "./\" in
  (* Remove parent folder and leading (back-)slashes *)
  let s := strings.TrimLeft (strings.Replace1 s cf EmptyString) "/\" in
  (* Return without file ext *)
  slice_to s (strings.len s - strings.len (tmplExt v)).

(** The function literal that [ParseTemplates] passes to
    [filepath.Walk]; [t] is the variable [t] of [ParseTemplates], which
    the literal assigns to. *)
Definition visit (v : Views) : WalkFunc (option Template) :=
  fun t path info err =>
    match err with
    | Some e => emit (Log e)
    | None => ret tt
    end ;;
    match info with
    | None => raise NilDereference            (* info.IsDir() on nil *)
    | Some info =>
        if negb (IsDir info) && String.eqb (filepath.Ext path) (tmplExt v)
        then
          b <- ioutil_ReadFile path info ;;
          match b with
          | inl err => ret (t, Some err)
          | inr b =>
              match TemplateName v path, t with
              | None, _ => raise SliceBounds
              | Some _, None => raise NilDereference
              | Some name, Some t0 =>
                  emit (Parse name) ;;
                  match New_Parse t0 name b with
                  | inl msg => ret (None, Some (TemplateError msg))
                  | inr t' => ret (Some t', err)
                  end
              end
          end
        else ret (t, err)
    end.

Definition mu_Lock : M unit :=
  v <- get_self ;;
  match mu v with
  | None => lift (raise NilDereference)
  | Some _ => lift (emit Lock)
  end.

Definition mu_Unlock : M unit := lift (emit Unlock).

(** [ParseTemplates] parses all template files with the matching
    extension inside the folder [path]; [fs] is the tree found there. *)
Definition ParseTemplates (fs : node) : M (option error) :=
  let t := Some (template_New "all") in
  v <- get_self ;;
  r <- lift (Walk (path v) fs (visit v) t) ;;
  match snd r with
  | Some err => ret (Some err)
  | None =>
      mu_Lock ;;
      lift (emit WriteTmpls) ;; modify (set_tmpls (fst r)) ;;
      mu_Unlock ;;                              (* deferred *)
      ret None
  end.

Definition read_reload : M bool :=
  lift (emit ReadReload) ;; v <- get_self ;; ret (reload v).

Definition read_tmpls : M (option Template) :=
  lift (emit ReadTmpls) ;; v <- get_self ;; ret (tmpls v).

(** The common beginning of the two render methods. *)
Definition reparse (fs : node) : M (option error) :=
  r <- read_reload ;;
  if r then ParseTemplates fs else ret None.

(** [ExecuteTemplate(w, name, data)]; the result carries the bytes
    written to [w]. *)
Definition ExecuteTemplate (fs : node) (name : string) (data : Data)
  : M (string * option error) :=
  err <- reparse fs ;;
  match err with
  | Some err => ret (EmptyString, Some err)
  | None =>
      t <- read_tmpls ;;
      match t with
      | None => lift (raise NilDereference)
      | Some t =>
          lift (emit Render) ;; ret (Template_ExecuteTemplate t name data)
      end
  end.

(** [Execute(w, data)] *)
Definition Execute (fs : node) (data : Data) : M (string * option error) :=
  err <- reparse fs ;;
  match err with
  | Some err => ret (EmptyString, Some err)
  | None =>
      t <- read_tmpls ;;
      match t with
      | None => lift (raise NilDereference)
      | Some t => lift (emit Render) ;; ret (Template_Execute t data)
      end
  end.

(** [Reload] defines if all templates will be reparsed on execution. *)
Definition Reload (f : bool) : M unit :=
  mu_Lock ;;
  lift (emit WriteReload) ;; modify (set_reload f) ;;
  mu_Unlock.                                    (* deferred *)

(** The registry that [NewViews] allocates before its first pass. *)
Definition fresh (path tmplExt : string) (reload : bool) : State :=
  {| self := {| reload := reload; path := path; tmplExt := tmplExt;
                tmpls := None; mu := Some NewMutex |};
     trace := [] |}.

(** [NewViews] will parse all files initially; it returns the parse
    errors.  The result is the pair of the registry and the error, with
    the events of the construction. *)
Definition NewViews (path tmplExt : string) (reload : bool) (fs : node)
  : list event * outcome (option Views * option error) :=
  match ParseTemplates fs (fresh path tmplExt reload) with
  | (st, Done (Some err)) => (trace st, Done (None, Some err))
  | (st, Done None) => (trace st, Done (Some (self st), None))
  | (st, Panicked p) => (trace st, Panicked p)
  end.

End Registry.

(** ** The walk as a sequence of entries *)

(** The entries at and below [path], each with its own path, in the order
    in which the walk comes to them. *)
Fixpoint entries_under (path : string) (n : node) : list (string * node) :=
  (path, n) ::
  match n with
  | Dir es =>
      flat_map (fun e => entries_under (filepath.Join path (fst e)) (snd e)) es
  | _ => []
  end.

(** The error that the walk reports for an entry. *)
Definition err_of (path : string) (n : node) : option error :=
  match n with
  | Missing => Some (PathError "lstat" path)
  | BadDir => Some (PathError "open" path)
  | File _ | Dir _ => None
  end.

Definition is_dir (n : node) : bool :=
  match n with
  | BadDir | Dir _ => true
  | Missing | File _ => false
  end.

Definition is_file (n : node) : bool :=
  match n with
  | File _ => true
  | _ => false
  end.

(** What the walk does at one entry, not counting the descent. *)
Definition at_entry {A : Type} (walkFn : WalkFunc A) (a : A)
  (e : string * node) : IO (A * option error) :=
  emit (Lstat (fst e)) ;;
  (if is_dir (snd e) then emit (ReadDirNames (fst e)) else ret tt) ;;
  walkFn a (fst e) (info_of (snd e)) (err_of (fst e) (snd e)).

(** The entries taken one after the other, up to the first error. *)
Fixpoint run_entries {A : Type} (walkFn : WalkFunc A)
  (l : list (string * node)) (a : A) : IO (A * option error) :=
  match l with
  | [] => ret (a, None)
  | e :: l' =>
      r <- at_entry walkFn a e ;;
      match snd r with
      | Some _ => ret r
      | None => run_entries walkFn l' (fst r)
      end
  end.

(** Projections of a list of events. *)
Definition logged (evs : list event) : list error :=
  flat_map (fun e => match e with Log err => [err] | _ => [] end) evs.

Definition files_read (evs : list event) : list string :=
  flat_map (fun e => match e with ReadFile p => [p] | _ => [] end) evs.

Definition names_parsed (evs : list event) : list string :=
  flat_map (fun e => match e with Parse n => [n] | _ => [] end) evs.

Definition is_field_access (e : event) : bool :=
  match e with
  | ReadReload | WriteReload | ReadTmpls | WriteTmpls => true
  | _ => false
  end.

(** [guarded held evs]: every access to a mutable field of the registry in
    [evs] happens while the mutex is held ([held]: it is held at the
    start). *)
Fixpoint guarded (held : bool) (evs : list event) : bool :=
  match evs with
  | [] => true
  | Lock :: evs' => guarded true evs'
  | Unlock :: evs' => guarded false evs'
  | e :: evs' => (held || negb (is_field_access e)) && guarded held evs'
  end.

(** Events outside the registry: the file system, the log, the engine's
    parser. *)
Definition is_outside (e : event) : bool :=
  match e with
  | Log _ | Lstat _ | ReadDirNames _ | ReadFile _ | Parse _ => true
  | _ => false
  end.

Section Selection.

Context {E : Engine}.

(** The test of the function literal: a non-directory whose
    [filepath.Ext] is the configured extension. *)
Definition selects (ext : string) (e : string * node) : bool :=
  is_file (snd e) && String.eqb (filepath.Ext (fst e)) ext.

(** The template sources of a pass over [fs]: the selected entries, in
    walk order. *)
Definition sources (v : Views) (fs : node) : list (string * node) :=
  filter (selects (tmplExt v)) (entries_under (path v) (lexical fs)).

(** An entry for which the walk reports no error. *)
Definition quiet (e : string * node) : bool :=
  match err_of (fst e) (snd e) with
  | None => true
  | Some _ => false
  end.


(** No entry of the tree makes the walk itself report an error. *)
Definition walkable (v : Views) (fs : node) : bool :=
  forallb quiet (entries_under (path v) (lexical fs)).


(** The sources parsed one after the other into one collection; [None]
    as soon as one cannot be read, named or parsed. *)
Fixpoint parse_all (v : Views) (files : list (string * node))
  (t : Template) : option Template :=
  match files with
  | [] => Some t
  | (p, File (Bytes b)) :: files' =>
      match TemplateName v p with
      | Some name =>
          match New_Parse t name b with
          | inr t' => parse_all v files' t'
          | inl _ => None
          end
      | None => None
      end
  | _ :: _ => None
  end.

(** The derived name of a source. *)
Definition name_of (v : Views) (e : string * node) : option string :=
  TemplateName v (fst e).

(** The walk of a pass on the registry of [st]. *)
Definition pass_of (st : State) (fs : node)
  : IO (option Template * option error) :=
  Walk (path (self st)) fs (visit (self st)) (Some (template_New "all")).

(** The calls a client can make on a registry once it has one. *)
Inductive call : Type :=
| CallExecuteTemplate (fs : node) (name : string) (data : Data)
| CallExecute (fs : node) (data : Data)
| CallReload (f : bool)
| CallParseTemplates (fs : node).

Definition perform (c : call) (st : State) : State :=
  match c with
  | CallExecuteTemplate fs name data =>
      after (ExecuteTemplate fs name data) st
  | CallExecute fs data => after (Execute fs data) st
  | CallReload f => after (Reload f) st
  | CallParseTemplates fs => after (ParseTemplates fs) st
  end.

End Selection.

(** ** Names that are defined more than once *)

(** The tree that a set of trees holds for a name. *)
Fixpoint tree_of {T : Type} (name : string) (trees : list (string * T))
  : option T :=
  match trees with
  | [] => None
  | (n, tree) :: trees' =>
      if String.eqb n name then Some tree else tree_of name trees'
  end.

(** [AddParseTree] and [associate] of [text/template], seen from one
    name: the tree under the name afterwards, from the tree [old] under it
    before and the tree [new] that the text just parsed holds for it.
    [associate] does not replace a template that exists by an empty
    one. *)
Definition associate {T : Type} (empty : T -> bool) (old new : option T)
  : option T :=
  match old, new with
  | _, None => old
  | None, Some tree => Some tree
  | Some o, Some tree => if empty tree then Some o else Some tree
  end.

Section Built.

Context {E : Engine}.

(** The collections that a pass goes through: the one [template.New]
    returns and those that [New(name).Parse(text)] makes of it, none of
    which has been executed. *)
Inductive built : Template -> Prop :=
| built_New (name : string) : built (template_New name)
| built_Parse (t : Template) (name text : string) (t' : Template) :
    built t -> New_Parse t name text = inr t' -> built t'.

End Built.

(** What [html/template] does in [t.New(name).Parse(text)] on a
    collection that has not been executed.  The call fails exactly when
    [parse.Parse] fails on the text.  Otherwise [text/template] hands
    every tree of the text, the text's own under [name] and one for each
    [define] in it, to [AddParseTree], where [associate] keeps the
    template that a name has when the new tree is empty and replaces it
    when it is not; [html/template] then takes over the templates of the
    underlying set, so that a name denotes there what it denotes in that
    set.  No other name is touched. *)
Class Associates (E : Engine) : Type := {
  (** [parse.Parse(name, text, ...)]: the trees of the text by name, or
      the message of the error. *)
  parse_Parse : string -> string -> string + list (string * Tree);
  (** [parse.IsEmptyTree(tree.Root)] *)
  IsEmptyTree : Tree -> bool;
  Lookup_New : forall name n, Lookup (template_New name) n = None;
  New_Parse_fails : forall t name text msg,
    built t -> parse_Parse name text = inl msg ->
    New_Parse t name text = inl msg;
  New_Parse_associates : forall t name text trees,
    built t -> parse_Parse name text = inr trees ->
    exists t',
      New_Parse t name text = inr t'
      /\ forall n,
           Lookup t' n = associate IsEmptyTree (Lookup t n) (tree_of n trees)
}.

Section Definers.

Context {E : Engine} {A : Associates E}.

(** The trees that a source holds by name: those of its text, parsed
    under its derived name; [None] when the source cannot be read, named
    or parsed. *)
Definition trees_of (v : Views) (e : string * node)
  : option (list (string * Tree)) :=
  match snd e with
  | File (Bytes b) =>
      match TemplateName v (fst e) with
      | Some name =>
          match parse_Parse name b with
          | inr trees => Some trees
          | inl _ => None
          end
      | None => None
      end
  | _ => None
  end.

(** The source can be read, named and parsed on its own. *)
Definition parses_alone (v : Views) (e : string * node) : bool :=
  match trees_of v e with
  | Some _ => true
  | None => false
  end.

(** The source holds a tree for the name [n], as its own or in a
    [define]. *)
Definition mentions (v : Views) (n : string) (e : string * node) : bool :=
  match trees_of v e with
  | Some trees =>
      match tree_of n trees with
      | Some _ => true
      | None => false
      end
  | None => false
  end.

(** The source holds a tree for the name [n] that is not empty. *)
Definition redefines (v : Views) (n : string) (e : string * node) : bool :=
  match trees_of v e with
  | Some trees =>
      match tree_of n trees with
      | Some tree => negb (IsEmptyTree tree)
      | None => false
      end
  | None => false
  end.

(** The tree under the name [n] after the sources [l], taken in order,
    from the tree [o] under it before them. *)
Definition installs (v : Views) (n : string) (l : list (string * node))
  (o : option Tree) : option Tree :=
  fold_left (fun o e =>
               match trees_of v e with
               | Some trees => associate IsEmptyTree o (tree_of n trees)
               | None => o
               end) l o.

End Definers.

(** ** The name derivation in the words of its description *)

Module Spec.

Definition chars : string -> list ascii := list_ascii_of_string.

Fixpoint drop_while (p : ascii -> bool) (l : list ascii) : list ascii :=
  match l with
  | [] => []
  | c :: l' => if p c then drop_while p l' else l
  end.

Definition separator_or_dot (c : ascii) : bool :=
  Ascii.eqb c "/" || Ascii.eqb c "\" || Ascii.eqb c ".".

Definition slash_or_backslash (c : ascii) : bool :=
  Ascii.eqb c "/" || Ascii.eqb c "\".

(** Leading and trailing separators and dots removed. *)
Definition trimmed (root : list ascii) : list ascii :=
  rev (drop_while separator_or_dot (rev (drop_while separator_or_dot root))).

Fixpoint starts_with (old l : list ascii) : bool :=
  match old, l with
  | [], _ => true
  | _ :: _, [] => false
  | a :: old', b :: l' => Ascii.eqb a b && starts_with old' l'
  end.

(** The first occurrence of [old], wherever it is, removed. *)
Fixpoint remove_first (old l : list ascii) : list ascii :=
  if starts_with old l then skipn (List.length old) l
  else match l with
       | [] => []
       | c :: l' => c :: remove_first old l'
       end.

(** Exactly [k] characters dropped from the end, which takes a list of
    at least [k] characters. *)
Definition drop_end (k : nat) (l : list ascii) : option (list ascii) :=
  if (k <=? List.length l)%nat then Some (rev (skipn k (rev l))) else None.

Definition derived_name (root ext file : string) : option string :=
  let s := drop_while slash_or_backslash
             (remove_first (trimmed (chars root)) (chars file)) in
  option_map string_of_list_ascii
             (drop_end (String.length ext) s).

(** A name ends with the extension: exact suffix match. *)
Definition ends_with (name ext : string) : bool :=
  starts_with (rev (chars ext)) (rev (chars name)).

(** A character that is neither the separator nor the dot. *)
Definition plain (c : ascii) : bool :=
  negb (Ascii.eqb c "/") && negb (Ascii.eqb c ".").

(** An extension selector of the usual shape: a dot, then characters
    other than the dot and the separator. *)
Definition dotted (ext : string) : bool :=
  match ext with
  | String c e => Ascii.eqb c "." && forallb plain (chars e)
  | EmptyString => false
  end.

(** Selection by exact suffix match of the extension. *)
Definition selects_by_suffix (ext : string) (e : string * node) : bool :=
  is_file (snd e) && ends_with (fst e) ext.

End Spec.

(** ** Two readings to be compared with the program *)

Section Readings.

Context {E : Engine}.


(** A successful pass reads exactly the non-directory entries whose path
    ends with the extension. *)
Definition reads_the_suffix_matches (fs : node) (st : State) : Prop :=
  result (ParseTemplates fs) st = Done None ->
  files_read (events (ParseTemplates fs) st)
  = map fst (filter (Spec.selects_by_suffix (tmplExt (self st)))
                    (entries_under (path (self st)) (lexical fs))).

(** When two sources derive the same name, a pass that succeeds installs
    under that name the tree of the source that the walk visits later. *)
Definition later_file_wins {A : Associates E} (fs : node) (st : State)
  : Prop :=
  forall (n : string) (earlier between later : list (string * node))
         (p1 p2 x1 x2 : string) (trees : list (string * Tree)) (tree : Tree),
    sources (self st) fs
    = earlier ++ (p1, File (Bytes x1)) :: between
              ++ (p2, File (Bytes x2)) :: later ->
    TemplateName (self st) p1 = Some n ->
    TemplateName (self st) p2 = Some n ->
    forallb (fun e => negb (mentions (self st) n e)) later = true ->
    parse_Parse n x2 = inr trees ->
    tree_of n trees = Some tree ->
    result (ParseTemplates fs) st = Done None ->
    exists t',
      tmpls (self (after (ParseTemplates fs) st)) = Some t'
      /\ Lookup t' n = Some tree.

End Readings.

(** ** A small engine and small trees to run the program on *)

(** An engine whose templates are their own source text: a text parses
    unless it opens an action that it never closes, and holds one tree,
    its own; a name space lists its definitions, the most recent first,
    and a name denotes its most recent definition.  As in
    [html/template], a text of white space only is an empty tree, which
    does not replace a definition that the name has. *)
Module TextEngine.

Definition Template : Type := string * list (string * string).

Definition unclosed (text : string) : bool :=
  (0 <=? strings.Index text "{{") && (strings.Index text "}}" <? 0).

Definition is_space (c : ascii) : bool :=
  Nat.eqb (nat_of_ascii c) 32
  || (Nat.leb 9 (nat_of_ascii c) && Nat.leb (nat_of_ascii c) 13).

Definition blank (text : string) : bool :=
  forallb is_space (list_ascii_of_string text).

Fixpoint assoc (defs : list (string * string)) (name : string)
  : option string :=
  match defs with
  | [] => None
  | (n, text) :: defs' =>
      if String.eqb n name then Some text else assoc defs' name
  end.

Definition parse (name text : string)
  : string + list (string * string) :=
  if unclosed text then inl ("unclosed action in " ++ name)%string
  else inr [(name, text)].

Definition New_Parse (t : Template) (name text : string)
  : string + Template :=
  match parse name text with
  | inl msg => inl msg
  | inr trees =>
      inr (name,
           match assoc (snd t) name with
           | Some _ => if blank text then snd t else trees ++ snd t
           | None => trees ++ snd t
           end)
  end.

Definition Lookup (t : Template) (name : string) : option string :=
  assoc (snd t) name.

Definition ExecuteTemplate (t : Template) (name : string) (data : unit)
  : string * option error :=
  match Lookup t name with
  | Some text => (text, None)
  | None => (EmptyString, Some (TemplateError ("no template " ++ name)%string))
  end.

Definition Execute (t : Template) (data : unit) : string * option error :=
  ExecuteTemplate t (fst t) data.

End TextEngine.

#[export] Instance text_engine : Engine := {
  Template := TextEngine.Template;
  Tree := string;
  Data := unit;
  template_New name := (name, []);
  New_Parse := TextEngine.New_Parse;
  Lookup := TextEngine.Lookup;
  Template_ExecuteTemplate := TextEngine.ExecuteTemplate;
  Template_Execute := TextEngine.Execute
}.

(** [templates/foo/bar/index.tmpl] and [templates/layout.tmpl], next to a
    file with another extension. *)
Definition site : node :=
  Dir [("layout.tmpl", File (Bytes "<html>{{block}}</html>"));
       ("foo", Dir [("bar", Dir [("index.tmpl", File (Bytes "hello"))])]);
       ("README.md", File (Bytes "docs"))].

#[export] Instance text_engine_associates : Associates text_engine.
Proof.
  refine {| parse_Parse := TextEngine.parse;
            IsEmptyTree := TextEngine.blank |}.
  - reflexivity.
  - intros t name text msg _ H. cbn. unfold TextEngine.New_Parse.
    now rewrite H.
  - intros t name text trees _ H. cbn. unfold TextEngine.New_Parse.
    rewrite H. eexists. split; [reflexivity|].
    intros n. unfold TextEngine.Lookup, TextEngine.parse in *. cbn [snd].
    destruct (TextEngine.unclosed text); [discriminate|].
    injection H as <-. cbn [tree_of app].
    destruct (String.eqb_spec name n) as [->|Hne].
    + destruct (TextEngine.assoc (snd t) n) as [o|] eqn:Ho; cbn.
      * destruct (TextEngine.blank text); [exact Ho|].
        cbn. now rewrite String.eqb_refl.
      * now rewrite String.eqb_refl.
    + assert (Hn : TextEngine.assoc ((name, text) :: snd t) n
                   = TextEngine.assoc (snd t) n).
      { cbn. now destruct (String.eqb_spec name n). }
      destruct (TextEngine.assoc (snd t) name);
        [destruct (TextEngine.blank text)|]; cbn [app];
        rewrite ?Hn; now destruct (TextEngine.assoc (snd t) n).
Defined.

(** The same tree with a template that does not parse. *)
Definition broken_site : node :=
  Dir [("layout.tmpl", File (Bytes "<html>{{block</html>"));
       ("foo", Dir [("bar", Dir [("index.tmpl", File (Bytes "hello"))])])].


(** One file with a two-part extension. *)
Definition archive : node :=
  Dir [("a.tar.gz", File (Bytes "x"))].

(** Two files of one directory with the same derived name: the name of the
    first begins with a backslash. *)
Definition collision : node :=
  Dir [("b.tmpl", File (Bytes "second")); ("\b.tmpl", File (Bytes "first"))].

(** The same two files, the later one empty. *)
Definition empty_collision : node :=
  Dir [("b.tmpl", File (Bytes EmptyString));
       ("\b.tmpl", File (Bytes "first"))].

(** A collection installed by an earlier pass. *)
Definition old_collection : TextEngine.Template :=
  ("foo/bar/index", [("foo/bar/index", "old")]).

(** A registry as [NewViews] leaves it, with a given collection. *)
Definition registry (root ext : string) (r : bool)
  (t : option TextEngine.Template) : State :=
  {| self := {| reload := r; path := root; tmplExt := ext;
                tmpls := t; mu := Some NewMutex |};
     trace := [] |}.

(** ** Further definitions for the properties below *)

(** How a list of events leaves the mutex, from whether it is held at the
    start; [None] when the events lock a mutex that is held or unlock one
    that is not. *)
Fixpoint bracket (held : bool) (evs : list event) : option bool :=
  match evs with
  | [] => Some held
  | Lock :: evs' => if held then None else bracket true evs'
  | Unlock :: evs' => if held then bracket false evs' else None
  | _ :: evs' => bracket held evs'
  end.

Definition no_slash (s : string) : bool :=
  forallb (fun c => negb (Ascii.eqb c "/")) (list_ascii_of_string s).

(** A name as a directory listing gives it: not empty, not [.] or [..],
    without separator. *)
Definition valid_name (s : string) : bool :=
  negb (String.eqb s EmptyString) && negb (String.eqb s ".")
  && negb (String.eqb s "..") && no_slash s.

(** Every name in every listing of the tree is valid. *)
Fixpoint named (n : node) : bool :=
  match n with
  | Dir es => forallb (fun e => valid_name (fst e) && named (snd e)) es
  | _ => true
  end.

(** The path made of the elements [es], with or without a leading and a
    trailing separator. *)
Definition rooted_at (lead : bool) (es : list string) (trail : bool) : string :=
  ((if lead then "/" else EmptyString)
   ++ String.concat "/" es
   ++ (if trail then "/" else EmptyString))%string.

(** *** The earlier [ParseTemplates] *)

Section Earlier.

Context {E : Engine}.

(** [template.ParseFiles(files...)] on the tree it reads them from. *)
Variable template_ParseFiles : node -> list string -> string + Template.

(** The function literal of the earlier [ParseTemplates]; [files] is the
    variable it appends to. *)
Definition collect (v : Views) : WalkFunc (list string) :=
  fun files path info err =>
    match err with
    | Some e => emit (Log e)
    | None => ret tt
    end ;;
    match info with
    | None => raise NilDereference            (* info.IsDir() on nil *)
    | Some info =>
        if negb (IsDir info) && String.eqb (filepath.Ext path) (tmplExt v)
        then ret (files ++ [path], err)
        else ret (files, err)
    end.

(** The earlier [ParseTemplates]: the walk only collects the paths, and
    the engine parses them afterwards. *)
Definition ParseTemplates_earlier (fs : node) : M (option error) :=
  v <- get_self ;;
  r <- lift (Walk (path v) fs (collect v) []) ;;
  match snd r with
  | Some err => ret (Some err)
  | None =>
      match template_ParseFiles fs (fst r) with
      | inl msg => ret (Some (TemplateError msg))
      | inr t =>
          mu_Lock ;;
          lift (emit WriteTmpls) ;; modify (set_tmpls (Some t)) ;;
          mu_Unlock ;;                            (* deferred *)
          ret None
      end
  end.

End Earlier.

(** Trees with a source that can be opened but not read (a symbolic link
    to a directory), and with an entry whose [os.Lstat] fails. *)
Definition unreadable : node :=
  Dir [("a.tmpl", File (Bytes "A")); ("b.tmpl", File (Fails "read"));
       ("c.tmpl", File (Bytes "C"))].

Definition dangling : node :=
  Dir [("a.tmpl", File (Bytes "A")); ("gone", Missing)].


(** Induction on a tree, with the hypothesis for every entry of a
    directory. *)
Fixpoint node_nested_ind (P : node -> Prop)
  (HM : P Missing) (HF : forall c, P (File c)) (HB : P BadDir)
  (HD : forall es, Forall (fun e => P (snd e)) es -> P (Dir es))
  (n : node) {struct n} : P n :=
  match n with
  | Missing => HM
  | File c => HF c
  | BadDir => HB
  | Dir es =>
      HD es ((fix all (es : list (string * node))
                : Forall (fun e => P (snd e)) es :=
                match es with
                | [] => Forall_nil _
                | e :: es' =>
                    Forall_cons e (node_nested_ind P HM HF HB HD (snd e)) (all es')
                end) es)
  end.

(** * Properties *)

(** ** The effect monads *)

Lemma io_bind_ret_l {A B : Type} (a : A) (k : A -> IO B) :
  bind (ret a) k = k a.
Proof. simpl. destruct (k a); reflexivity. Qed.

Lemma io_bind_assoc {A B C : Type} (m : IO A) (k : A -> IO B) (h : B -> IO C) :
  bind (bind m k) h = bind m (fun x => bind (k x) h).
Proof.
  destruct m as [evs [a|p]]; simpl; [|reflexivity].
  destruct (k a) as [evs' [b|p]]; simpl; [|reflexivity].
  now rewrite app_assoc.
Qed.

Lemma io_bind_stop {A : Type} (m : IO (A * option error)) :
  bind m (fun r => match snd r with
                   | Some _ => ret r
                   | None => ret (fst r, None)
                   end) = m.
Proof.
  destruct m as [evs [[a [e|]]|p]]; simpl; now rewrite ?app_nil_r.
Qed.

(** ** The walk visits the entries in order *)

(** A run over two lists of entries is the run over the first followed,
    unless it ended with an error, by the run over the second. *)
Lemma run_entries_app {A : Type} (walkFn : WalkFunc A) l1 l2 a :
  run_entries walkFn (l1 ++ l2) a =
  bind (run_entries walkFn l1 a)
       (fun r => match snd r with
                 | Some _ => ret r
                 | None => run_entries walkFn l2 (fst r)
                 end).
Proof.
  revert a. induction l1 as [|e l1 IH]; intros a.
  - cbn [app run_entries]. now rewrite io_bind_ret_l.
  - cbn [app run_entries]. rewrite io_bind_assoc.
    destruct (at_entry walkFn a e) as [evs [[a' [err|]]|p]]; simpl; try reflexivity.
    rewrite IH. reflexivity.
Qed.

Lemma at_entry_leaf {A : Type} (walkFn : WalkFunc A) a path n :
  is_dir n = false ->
  at_entry walkFn a (path, n) =
  bind (emit (Lstat path)) (fun _ => walkFn a path (info_of n) (err_of path n)).
Proof.
  intros H. unfold at_entry. cbn [fst snd]. rewrite H.
  destruct (walkFn a path (info_of n) (err_of path n)) as [evs r]. reflexivity.
Qed.

Lemma at_entry_dir {A : Type} (walkFn : WalkFunc A) a path n :
  is_dir n = true ->
  at_entry walkFn a (path, n) =
  bind (emit (Lstat path)) (fun _ => bind (emit (ReadDirNames path)) (fun _ => walkFn a path (info_of n) (err_of path n))).
Proof.
  intros H. unfold at_entry. cbn [fst snd]. rewrite H. reflexivity.
Qed.

(** The walk of a tree is the run over its entries, in walk order. *)
Theorem walk_run_entries {A : Type} (walkFn : WalkFunc A) n :
  forall path a, walk walkFn path n a = run_entries walkFn (entries_under path n) a.
Proof.
  induction n as [| c | | es IH] using node_nested_ind; intros path a.
  - cbn [entries_under run_entries]. rewrite at_entry_leaf by reflexivity.
    rewrite io_bind_stop. reflexivity.
  - cbn [entries_under run_entries]. rewrite at_entry_leaf by reflexivity.
    rewrite io_bind_stop. reflexivity.
  - cbn [entries_under run_entries]. rewrite at_entry_dir by reflexivity.
    rewrite io_bind_stop. reflexivity.
  - cbn [entries_under run_entries]. rewrite at_entry_dir by reflexivity.
    cbn [walk]. rewrite !io_bind_assoc.
    cbn [info_of err_of].
    destruct (walkFn a path (Some {| IsDir := true; contents := Fails "read" |}) None)
      as [evs [[a' [err|]]|p]]; try reflexivity.
    cbn [bind IO_Monad emit fst snd].
    match goal with
    | |- (_, snd ?x) = (_, snd ?y) => enough (Heq : x = y) by now rewrite Heq
    end.
    cbn [fst snd]. clear evs a.
    revert a'. induction IH as [|e es He _ IHes]; intros a.
    + reflexivity.
    + cbn [flat_map]. rewrite run_entries_app, He.
      destruct (run_entries walkFn
                  (entries_under (filepath.Join path (fst e)) (snd e)) a)
        as [evs [[a' [err|]]|p]]; try reflexivity.
      cbn [bind IO_Monad fst snd]. now rewrite IHes.
Qed.

#[local] Arguments filepath.Ext : simpl never.
#[local] Arguments TemplateName : simpl never.
#[local] Arguments String.eqb : simpl never.

Section AtEntry.
Context {E : Engine}.
Variable v : Views.

Lemma at_entry_visit_Missing t p :
  at_entry (visit v) t (p, Missing)
  = ([Lstat p; Log (PathError "lstat" p)], Panicked NilDereference).
Proof. reflexivity. Qed.

Lemma at_entry_visit_BadDir t p :
  at_entry (visit v) t (p, BadDir)
  = ([Lstat p; ReadDirNames p; Log (PathError "open" p)],
     Done (t, Some (PathError "open" p))).
Proof. reflexivity. Qed.

Lemma at_entry_visit_Dir t p es :
  at_entry (visit v) t (p, Dir es)
  = ([Lstat p; ReadDirNames p], Done (t, None)).
Proof. reflexivity. Qed.

Lemma at_entry_visit_other t p c :
  String.eqb (filepath.Ext p) (tmplExt v) = false ->
  at_entry (visit v) t (p, File c) = ([Lstat p], Done (t, None)).
Proof. intros H. unfold at_entry, visit. cbn. rewrite H. reflexivity. Qed.

Lemma at_entry_visit_File t p c :
  String.eqb (filepath.Ext p) (tmplExt v) = true ->
  at_entry (visit v) t (p, File c)
  = match c with
    | Fails op => ([Lstat p; ReadFile p], Done (t, Some (PathError op p)))
    | Bytes b =>
        match TemplateName v p, t with
        | None, _ => ([Lstat p; ReadFile p], Panicked SliceBounds)
        | Some _, None => ([Lstat p; ReadFile p], Panicked NilDereference)
        | Some name, Some t0 =>
            ([Lstat p; ReadFile p; Parse name],
             match New_Parse t0 name b with
             | inl msg => Done (None, Some (TemplateError msg))
             | inr t' => Done (Some t', None)
             end)
        end
    end.
Proof.
  intros H. unfold at_entry, visit. cbn. rewrite H.
  destruct c as [b|]; cbn; [|reflexivity].
  destruct (TemplateName v p) as [name|]; [|reflexivity].
  destruct t as [t0|]; [|reflexivity].
  cbn. destruct (New_Parse t0 name b); reflexivity.
Qed.

End AtEntry.

Lemma logged_app a b : logged (a ++ b) = logged a ++ logged b.
Proof. apply flat_map_app. Qed.
Lemma files_read_app a b : files_read (a ++ b) = files_read a ++ files_read b.
Proof. apply flat_map_app. Qed.
Lemma names_parsed_app a b : names_parsed (a ++ b) = names_parsed a ++ names_parsed b.
Proof. apply flat_map_app. Qed.

Ltac events_simpl :=
  unfold logged, files_read, names_parsed in *; cbn [flat_map app map] in *.


Section EntryRuns.
Context {E : Engine}.
Variable v : Views.

Lemma run_entries_cons {A} (walkFn : WalkFunc A) e l a :
  run_entries walkFn (e :: l) a =
  match at_entry walkFn a e with
  | (evs, Done (a', None)) =>
      (evs ++ fst (run_entries walkFn l a'), snd (run_entries walkFn l a'))
  | (evs, Done (a', Some err)) => (evs, Done (a', Some err))
  | (evs, Panicked p) => (evs, Panicked p)
  end.
Proof.
  cbn [run_entries]. destruct (at_entry walkFn a e) as [evs [[a' [err|]]|p]];
    cbn; now rewrite ?app_nil_r.
Qed.

Lemma selects_File ext p c :
  selects ext (p, File c) = String.eqb (filepath.Ext p) ext.
Proof. reflexivity. Qed.

Lemma selects_Dir ext p es : selects ext (p, Dir es) = false.
Proof. reflexivity. Qed.

(** A run that ends without an error met no entry with a walk error, has
    parsed the selected entries one after the other into a non-nil
    collection, has read exactly these and has logged nothing. *)
Lemma run_entries_success l : forall t evs t',
  run_entries (visit v) l (Some t) = (evs, Done (t', None)) ->
  forallb quiet l = true
  /\ (exists t1, t' = Some t1
                 /\ parse_all v (filter (selects (tmplExt v)) l) t = Some t1)
  /\ logged evs = []
  /\ files_read evs = map fst (filter (selects (tmplExt v)) l)
  /\ map Some (names_parsed evs)
     = map (name_of v) (filter (selects (tmplExt v)) l).
Proof.
  induction l as [|[p n] l IH]; intros t evs t' H.
  - inversion H; subst. cbn. repeat split; eauto.
  - rewrite run_entries_cons in H. cbn [filter forallb].
    destruct n as [|c| |es].
    + rewrite at_entry_visit_Missing in H. discriminate.
    + rewrite selects_File.
      destruct (String.eqb (filepath.Ext p) (tmplExt v)) eqn:Hext.
      * rewrite (at_entry_visit_File v (Some t) p c Hext) in H.
        destruct c as [b|]; [|discriminate].
        unfold name_of. cbn [fst parse_all map].
        destruct (TemplateName v p) as [name|]; [|discriminate].
        destruct (New_Parse t name b) as [msg|t1]; [discriminate|].
        destruct (run_entries (visit v) l (Some t1)) as [evs1 r1] eqn:Hrun.
        cbn [fst snd] in H. inversion H; subst.
        destruct (IH _ _ _ Hrun) as (Hq & Hp & Hl & Hf & Hn).
        events_simpl. rewrite Hl, Hf, Hq. repeat split; try assumption.
        now (unfold name_of in Hn; rewrite Hn).
      * rewrite (at_entry_visit_other v (Some t) p c Hext) in H.
        destruct (run_entries (visit v) l (Some t)) as [evs1 r1] eqn:Hrun.
        cbn [fst snd] in H. inversion H; subst.
        destruct (IH _ _ _ Hrun) as (Hq & Hp & Hl & Hf & Hn).
        events_simpl. rewrite Hl, Hf, Hq. repeat split; assumption.
    + rewrite at_entry_visit_BadDir in H. discriminate.
    + rewrite at_entry_visit_Dir in H. rewrite selects_Dir.
      destruct (run_entries (visit v) l (Some t)) as [evs1 r1] eqn:Hrun.
      cbn [fst snd] in H. inversion H; subst.
      destruct (IH _ _ _ Hrun) as (Hq & Hp & Hl & Hf & Hn).
      events_simpl. rewrite Hl, Hf, Hq. repeat split; assumption.
Qed.

(** Conversely, a run over entries without walk errors whose selected
    entries can all be read, named and parsed ends without an error. *)
Lemma run_entries_succeeds l : forall t t1,
  forallb quiet l = true ->
  parse_all v (filter (selects (tmplExt v)) l) t = Some t1 ->
  snd (run_entries (visit v) l (Some t)) = Done (Some t1, None).
Proof.
  induction l as [|[p n] l IH]; intros t t1 Hq Hp.
  - cbn in Hp. inversion Hp; subst. reflexivity.
  - rewrite run_entries_cons.
    cbn [forallb] in Hq. apply andb_prop in Hq as [Hq1 Hq].
    destruct n as [|c| |es]; try discriminate.
    + cbn [filter] in Hp. rewrite selects_File in Hp.
      destruct (String.eqb (filepath.Ext p) (tmplExt v)) eqn:Hext.
      * rewrite (at_entry_visit_File v (Some t) p c Hext).
        cbn [parse_all] in Hp.
        destruct c as [b|]; [|discriminate].
        destruct (TemplateName v p) as [name|]; [|discriminate].
        destruct (New_Parse t name b) as [msg|t2]; [discriminate|].
        cbn [snd]. now apply IH.
      * rewrite (at_entry_visit_other v (Some t) p c Hext).
        cbn [snd]. now apply IH.
    + rewrite at_entry_visit_Dir. cbn [snd]. apply IH; assumption.
Qed.


End EntryRuns.

(** ** The library models on the examples of their documentation *)

Example Clean_examples :
  map filepath.Clean
    ["a/c"; "a//c"; "a/c/."; "a/c/b/.."; "/../a/c"; "/../a/b/../././/c";
     EmptyString; "templates/"; "./t"; "../../x"; "a/../.."; "/"; "mp/.."]
  = ["a/c"; "a/c"; "a/c"; "a/c"; "/a/c"; "/a/c"; ".";
     "templates"; "t"; "../../x"; ".."; "/"; "."].
Proof. reflexivity. Qed.

Example Join_examples :
  map (fun p => filepath.Join (fst p) (snd p))
    [("templates/", "foo"); ("templates/foo", "bar"); (".", "x.tmpl");
     ("/", "etc"); ("mp/..", "a.tmpl")]
  = ["templates/foo"; "templates/foo/bar"; "x.tmpl"; "/etc"; "a.tmpl"].
Proof. reflexivity. Qed.

Example Ext_examples :
  map filepath.Ext ["index.tmpl"; "a/b.c/d"; "a.tar.gz"; "x."; "noext"; ".tmpl"; "a.b/"]
  = [".tmpl"; EmptyString; ".gz"; "."; EmptyString; ".tmpl"; EmptyString].
Proof. reflexivity. Qed.

Example strings_examples :
  strings.Trim "./templates/" "./\" = "templates"
  /\ strings.Trim "..." "./\" = EmptyString
  /\ strings.Index "chicken" "ken" = 4
  /\ strings.Index "chicken" "dmr" = -1
  /\ strings.Replace1 "oink oink oink" "k" "ky" = "oinky oink oink"
  /\ strings.Replace1 "abc" EmptyString EmptyString = "abc"
  /\ strings.TrimLeft "//\x" "/\" = "x".
Proof. repeat split. Qed.

(** ** The methods of the registry *)

Section Methods.
Context {E : Engine}.

(** [ParseTemplates] in terms of the outcome of its walk. *)
Lemma ParseTemplates_run fs st :
  ParseTemplates fs st =
  match pass_of st fs with
  | (evs, Done (t, None)) =>
      match mu (self st) with
      | Some _ =>
          ({| self := set_tmpls t (self st);
              trace := trace st ++ evs ++ [Lock; WriteTmpls; Unlock] |},
           Done None)
      | None =>
          ({| self := self st; trace := trace st ++ evs |},
           Panicked NilDereference)
      end
  | (evs, Done (_, Some err)) =>
      ({| self := self st; trace := trace st ++ evs |}, Done (Some err))
  | (evs, Panicked p) =>
      ({| self := self st; trace := trace st ++ evs |}, Panicked p)
  end.
Proof.
  unfold ParseTemplates, pass_of.
  cbn [bind M_Monad get_self lift].
  destruct (Walk _ fs _ _) as [evs [[t [err|]]|p]]; cbn [fst snd]; try reflexivity.
  unfold mu_Lock. cbn [bind M_Monad get_self self].
  destruct (mu (self st)); cbn; [|now rewrite app_nil_r].
  now rewrite <- !app_assoc.
Qed.

Lemma events_app {A} (m : M A) st evs :
  trace (after m st) = trace st ++ evs -> events m st = evs.
Proof.
  intros H. unfold events. rewrite H. 
  rewrite skipn_app, skipn_all, Nat.sub_diag. reflexivity.
Qed.

Lemma ParseTemplates_keeps_self fs st :
  result (ParseTemplates fs) st <> Done None ->
  self (after (ParseTemplates fs) st) = self st.
Proof.
  unfold result, after. rewrite ParseTemplates_run.
  destruct (pass_of st fs) as [evs [[t [err|]]|p]]; try reflexivity.
  destruct (mu (self st)); [|reflexivity].
  intros H. now contradiction H.
Qed.

Lemma reparse_run fs st :
  reparse fs st =
  let st1 := {| self := self st; trace := trace st ++ [ReadReload] |} in
  if reload (self st) then ParseTemplates fs st1 else (st1, Done None).
Proof.
  unfold reparse, read_reload. cbn. destruct (reload (self st)); reflexivity.
Qed.

Lemma reparse_keeps_self fs st :
  result (reparse fs) st <> Done None ->
  self (after (reparse fs) st) = self st.
Proof.
  unfold result, after. rewrite reparse_run. cbn zeta.
  destruct (reload (self st)).
  - intros H. now apply ParseTemplates_keeps_self in H.
  - intros H. now contradiction H.
Qed.



Lemma pass_of_not_nil st fs evs t :
  pass_of st fs = (evs, Done (t, None)) -> t <> None.
Proof.
  unfold pass_of, Walk. rewrite walk_run_entries. intros H.
  apply run_entries_success in H as (_ & (t1 & -> & _) & _). discriminate.
Qed.

Lemma ParseTemplates_not_nil fs st :
  tmpls (self st) <> None ->
  tmpls (self (after (ParseTemplates fs) st)) <> None.
Proof.
  intros H. unfold after. rewrite ParseTemplates_run.
  destruct (pass_of st fs) as [evs [[t [err|]]|p]] eqn:Hp; try exact H.
  destruct (mu (self st)); [|exact H].
  cbn. now apply pass_of_not_nil in Hp.
Qed.

Lemma reparse_not_nil fs st :
  tmpls (self st) <> None ->
  tmpls (self (after (reparse fs) st)) <> None.
Proof.
  intros H. unfold after. rewrite reparse_run. cbn zeta.
  destruct (reload (self st)); [|exact H].
  now apply (ParseTemplates_not_nil fs {| self := self st; trace := _ |}).
Qed.

Lemma render_after fs st (k : Template -> string * option error) :
  self (fst ((err <- reparse fs ;;
              match err with
              | Some err => ret (EmptyString, Some err)
              | None =>
                  t <- read_tmpls ;;
                  match t with
                  | None => lift (raise NilDereference)
                  | Some t => lift (emit Render) ;; ret (k t)
                  end
              end) st))
  = self (after (reparse fs) st).
Proof.
  unfold after. cbn [bind M_Monad].
  destruct (reparse fs st) as [st' [[err|]|p]]; try reflexivity.
  unfold read_tmpls. cbn. destruct (tmpls (self st')); reflexivity.
Qed.

Lemma perform_not_nil c st :
  tmpls (self st) <> None -> tmpls (self (perform c st)) <> None.
Proof.
  intros H. destruct c as [fs name data|fs data|f|fs]; cbn [perform].
  - unfold after, ExecuteTemplate. rewrite render_after. now apply reparse_not_nil.
  - unfold after, Execute. rewrite render_after. now apply reparse_not_nil.
  - unfold after, Reload, mu_Lock. cbn. destruct (mu (self st)); exact H.
  - now apply ParseTemplates_not_nil.
Qed.

Lemma performs_not_nil calls : forall st,
  tmpls (self st) <> None ->
  tmpls (self (fold_left (fun st c => perform c st) calls st)) <> None.
Proof.
  induction calls as [|c calls IH]; intros st H; [exact H|].
  cbn [fold_left]. apply IH. now apply perform_not_nil.
Qed.





(** A run only produces events outside the registry. *)
Lemma run_entries_outside v l : forall t,
  forallb is_outside (fst (run_entries (visit v) l t)) = true.
Proof.
  induction l as [|[p n] l IH]; intros t; [reflexivity|].
  rewrite run_entries_cons.
  destruct n as [|c| |es].
  - now rewrite at_entry_visit_Missing.
  - destruct (String.eqb (filepath.Ext p) (tmplExt v)) eqn:Hext.
    + rewrite (at_entry_visit_File v t p c Hext).
      destruct c as [b|]; [|reflexivity].
      destruct (TemplateName v p) as [name|]; [|reflexivity].
      destruct t as [t0|]; [|reflexivity].
      destruct (New_Parse t0 name b) as [msg|t1]; [reflexivity|].
      cbn [fst]. rewrite forallb_app, IH. reflexivity.
    + rewrite (at_entry_visit_other v t p c Hext).
      cbn [fst]. rewrite forallb_app, IH. reflexivity.
  - now rewrite at_entry_visit_BadDir.
  - rewrite at_entry_visit_Dir. cbn [fst]. rewrite forallb_app, IH. reflexivity.
Qed.

Lemma guarded_outside held evs rest :
forallb is_outside evs = true ->
guarded held (evs ++ rest) = guarded held rest.
Proof.
induction evs as [|e evs IH]; intros H; [reflexivity|].
cbn [forallb] in H. apply andb_prop in H as [He H].
destruct e; try discriminate; cbn; rewrite IH by exact H;
  now rewrite orb_true_r.
Qed.

Lemma ParseTemplates_events fs st :
  events (ParseTemplates fs) st
  = fst (pass_of st fs)
    ++ match result (ParseTemplates fs) st with
       | Done None => [Lock; WriteTmpls; Unlock]
       | _ => []
       end.
Proof.
  apply events_app. unfold after, result. rewrite ParseTemplates_run.
  destruct (pass_of st fs) as [evs [[t [err|]]|p]]; cbn [fst snd trace];
    rewrite ?app_nil_r; try reflexivity.
  destruct (mu (self st)); cbn [fst snd trace]; now rewrite ?app_nil_r.
Qed.

(** Every render begins with the read of the reload flag. *)
Lemma render_trace fs st (k : Template -> string * option error) :
  exists evs,
    trace (fst ((err <- reparse fs ;;
                 match err with
                 | Some err => ret (EmptyString, Some err)
                 | None =>
                     t <- read_tmpls ;;
                     match t with
                     | None => lift (raise NilDereference)
                     | Some t => lift (emit Render) ;; ret (k t)
                     end
                 end) st)) = trace st ++ ReadReload :: evs.
Proof.
  assert (Hre : exists evs,
             trace (fst (reparse fs st)) = trace st ++ ReadReload :: evs).
  { rewrite reparse_run. cbn zeta. destruct (reload (self st)).
    - rewrite ParseTemplates_run.
      destruct (pass_of _ fs) as [evs [[t [err|]]|p]]; cbn [self trace fst].
      + eexists. cbn. now rewrite <- app_assoc.
      + destruct (mu (self st)); eexists; cbn; now rewrite <- app_assoc.
      + eexists. cbn. now rewrite <- app_assoc.
    - exists []. reflexivity. }
  destruct Hre as (evs & Htr).
  unfold read_tmpls. cbn [bind M_Monad].
  destruct (reparse fs st) as [st' [[err|]|p]]; cbn [fst] in Htr.
  - exists evs. exact Htr.
  - cbn. destruct (tmpls (self st')) eqn:Ht.
    + exists (evs ++ [ReadTmpls; Render]). cbn.
      rewrite Htr. now rewrite <- !app_assoc.
    + exists (evs ++ [ReadTmpls]). cbn.
      rewrite Htr. now rewrite <- !app_assoc, ?app_nil_r.
  - exists evs. exact Htr.
Qed.



Lemma pass_of_success st fs evs t :
  pass_of st fs = (evs, Done (t, None)) ->
  walkable (self st) fs = true
  /\ (exists t1, t = Some t1
                 /\ parse_all (self st) (sources (self st) fs)
                              (template_New "all") = Some t1)
  /\ logged evs = []
  /\ files_read evs = map fst (sources (self st) fs)
  /\ map Some (names_parsed evs)
     = map (name_of (self st)) (sources (self st) fs).
Proof.
  unfold pass_of, Walk. rewrite walk_run_entries.
  apply run_entries_success.
Qed.




Lemma pass_of_succeeds st fs t1 :
  walkable (self st) fs = true ->
  parse_all (self st) (sources (self st) fs) (template_New "all") = Some t1 ->
  snd (pass_of st fs) = Done (Some t1, None).
Proof.
  unfold pass_of, Walk. rewrite walk_run_entries.
  apply run_entries_succeeds.
Qed.

Lemma parse_all_app v l1 l2 t t' :
  parse_all v (l1 ++ l2) t = Some t' ->
  exists t1, parse_all v l1 t = Some t1 /\ parse_all v l2 t1 = Some t'.
Proof.
  revert t. induction l1 as [|[p n] l1 IH]; intros t H.
  - exists t. split; [reflexivity | exact H].
  - cbn [app parse_all] in *.
    destruct n as [|[b|]| |es]; try discriminate.
    destruct (TemplateName v p) as [name|]; [|discriminate].
    destruct (New_Parse t name b) as [msg|t2]; [discriminate|].
    now apply IH.
Qed.

Section Collisions.

Context {A : Associates E}.

Lemma installs_app v n l1 l2 o :
  installs v n (l1 ++ l2) o = installs v n l2 (installs v n l1 o).
Proof. unfold installs. apply fold_left_app. Qed.

(** A tree that is not empty is kept by the sources that do not hold a
    tree for the name that is not empty either. *)
Lemma installs_keeps v n tree l :
  forallb (fun e => negb (redefines v n e)) l = true ->
  installs v n l (Some tree) = Some tree.
Proof.
  induction l as [|e l IH]; intros H; [reflexivity|].
  cbn [forallb] in H. apply andb_prop in H as [He Hl].
  unfold installs in *. cbn [fold_left].
  unfold redefines in He.
  destruct (trees_of v e) as [trees|]; [|now apply IH].
  destruct (tree_of n trees) as [tree2|]; cbn [associate]; [|now apply IH].
  rewrite negb_involutive in He. rewrite He. now apply IH.
Qed.

(** Sources that hold no tree for the name leave it as it is. *)
Lemma installs_untouched v n l : forall o,
  forallb (fun e => negb (mentions v n e)) l = true ->
  installs v n l o = o.
Proof.
  induction l as [|e l IH]; intros o H; [reflexivity|].
  cbn [forallb] in H. apply andb_prop in H as [He Hl].
  unfold installs in *. cbn [fold_left].
  unfold mentions in He.
  destruct (trees_of v e) as [trees|]; [|now apply IH].
  destruct (tree_of n trees) as [tree2|]; [discriminate|].
  rewrite IH by assumption. now destruct o.
Qed.

(** The last source that holds a tree for the name that is not empty
    gives the name its tree. *)
Lemma installs_last v n pre e post o trees tree :
  trees_of v e = Some trees ->
  tree_of n trees = Some tree ->
  IsEmptyTree tree = false ->
  forallb (fun e => negb (redefines v n e)) post = true ->
  installs v n (pre ++ e :: post) o = Some tree.
Proof.
  intros Htrees Htree Hne Hpost.
  rewrite installs_app.
  change (e :: post) with ([e] ++ post). rewrite installs_app.
  unfold installs at 2. cbn [fold_left]. rewrite Htrees, Htree.
  destruct (installs v n pre o); cbn [associate]; rewrite ?Hne;
    now apply installs_keeps.
Qed.

(** A pass parses its sources into a collection in which every name
    denotes what [associate] made of the trees of the sources, in walk
    order. *)
Lemma parse_all_installs v n l : forall t t',
  built t ->
  parse_all v l t = Some t' ->
  built t' /\ Lookup t' n = installs v n l (Lookup t n).
Proof.
  induction l as [|[p m] l IH]; intros t t' Hb H.
  - inversion H; subst. now split.
  - cbn [parse_all] in H.
    destruct m as [|[b|op]| |es]; try discriminate.
    destruct (TemplateName v p) as [name|] eqn:Hname; [|discriminate].
    destruct (New_Parse t name b) as [msg|t2] eqn:Hparse; [discriminate|].
    destruct (parse_Parse name b) as [msg|trees] eqn:Htrees.
    { rewrite (New_Parse_fails _ _ _ _ Hb Htrees) in Hparse. discriminate. }
    destruct (New_Parse_associates _ _ _ _ Hb Htrees) as (t2' & Ht2 & Hlook).
    rewrite Hparse in Ht2. injection Ht2 as <-.
    destruct (IH t2 t' (built_Parse _ _ _ _ Hb Hparse) H) as [Hb' Hl].
    split; [exact Hb'|]. rewrite Hl, Hlook.
    unfold installs. cbn [fold_left]. unfold trees_of. cbn [fst snd].
    now rewrite Hname, Htrees.
Qed.

(** Whether a pass parses its sources depends on each source alone. *)
Lemma parse_all_parses v l : forall t,
  built t ->
  (exists t', parse_all v l t = Some t')
  <-> forallb (parses_alone v) l = true.
Proof.
  induction l as [|[p m] l IH]; intros t Hb.
  - split; [reflexivity|]. intros _. now exists t.
  - cbn [parse_all forallb]. unfold parses_alone at 1, trees_of. cbn [fst snd].
    destruct m as [|[b|op]| |es];
      try (split; [intros [t' H]; discriminate H | discriminate]).
    destruct (TemplateName v p) as [name|];
      [|split; [intros [t' H]; discriminate H | discriminate]].
    destruct (parse_Parse name b) as [msg|trees] eqn:Htrees.
    + rewrite (New_Parse_fails _ _ _ _ Hb Htrees).
      split; [intros [t' H]; discriminate H | discriminate].
    + destruct (New_Parse_associates _ _ _ _ Hb Htrees) as (t2 & Ht2 & _).
      rewrite Ht2. cbn [andb].
      apply IH. exact (built_Parse _ _ _ _ Hb Ht2).
Qed.

(** What a pass that returns nil has installed. *)
Lemma ParseTemplates_installed fs st t' :
  result (ParseTemplates fs) st = Done None ->
  tmpls (self (after (ParseTemplates fs) st)) = Some t' ->
  parse_all (self st) (sources (self st) fs) (template_New "all") = Some t'.
Proof.
  intros Hres Ht'. unfold result in Hres. unfold after in Ht'.
  rewrite ParseTemplates_run in Hres, Ht'.
  destruct (pass_of st fs) as [evs [[t0 [err|]]|q]] eqn:Hp; try discriminate.
  apply pass_of_success in Hp as (_ & (t1 & -> & Hall) & _).
  destruct (mu (self st)); [|discriminate].
  cbn in Ht'. now inversion Ht'; subst t1.
Qed.

(** After a pass that returned nil, a name denotes what [associate] made
    of the trees that the sources hold for it, in walk order. *)
Lemma ParseTemplates_Lookup fs st t' n :
  result (ParseTemplates fs) st = Done None ->
  tmpls (self (after (ParseTemplates fs) st)) = Some t' ->
  Lookup t' n = installs (self st) n (sources (self st) fs) None.
Proof.
  intros Hres Ht'.
  pose proof (ParseTemplates_installed fs st t' Hres Ht') as Hall.
  destruct (parse_all_installs (self st) n _ _ _ (built_New "all") Hall)
    as [_ Hl].
  now rewrite Hl, Lookup_New.
Qed.

(** A pass returns nil exactly when the mutex is allocated, the walk meets
    no error and every source can be read, named and parsed on its
    own. *)
Lemma ParseTemplates_nil_iff fs st :
  result (ParseTemplates fs) st = Done None
  <-> mu (self st) <> None
      /\ walkable (self st) fs = true
      /\ forallb (parses_alone (self st)) (sources (self st) fs) = true.
Proof.
  rewrite <- (parse_all_parses (self st) (sources (self st) fs)
                (template_New "all") (built_New "all")).
  unfold result. rewrite ParseTemplates_run.
  destruct (pass_of st fs) as [evs [[t0 [err|]]|p]] eqn:Hp.
  - split; [discriminate|].
    intros (_ & Hw & t & Ht).
    pose proof (pass_of_succeeds st fs t Hw Ht) as H. rewrite Hp in H.
    discriminate.
  - apply pass_of_success in Hp as (Hw & (t1 & -> & Ht1) & _).
    destruct (mu (self st)) eqn:Hmu; cbn [fst snd].
    + split; [|reflexivity].
      intros _. split; [discriminate|]. split; [exact Hw|]. now exists t1.
    + split; [discriminate|]. intros (Hm & _). now contradiction Hm.
  - split; [discriminate|].
    intros (_ & Hw & t & Ht).
    pose proof (pass_of_succeeds st fs t Hw Ht) as H. rewrite Hp in H.
    discriminate.
Qed.

End Collisions.


End Methods.

(** ** The name derivation and its description *)

Section Description.

Import Spec.

Lemma chars_length s : List.length (chars s) = String.length s.
Proof. induction s; cbn; congruence. Qed.

Lemma chars_app a b : chars (a ++ b)%string = chars a ++ chars b.
Proof. induction a; cbn; congruence. Qed.

Lemma chars_take n : forall s, chars (strings.take n s) = firstn n (chars s).
Proof. induction n; intros [|c s]; cbn; try reflexivity. now rewrite IHn. Qed.

Lemma chars_drop n : forall s, chars (strings.drop n s) = skipn n (chars s).
Proof. induction n; intros [|c s]; cbn; try reflexivity. now rewrite IHn. Qed.

Lemma drop_while_ext p q l :
(forall c, p c = q c) -> drop_while p l = drop_while q l.
Proof. intros H. induction l as [|c l IH]; cbn; [reflexivity|]. now rewrite H, IH. Qed.

Lemma chars_TrimLeft cut s :
chars (strings.TrimLeft s cut) = drop_while (strings.ContainsByte cut) (chars s).
Proof.
induction s as [|c s IH]; cbn; [reflexivity|].
destruct (strings.ContainsByte cut c); [exact IH | reflexivity].
Qed.

Lemma drop_while_snoc p l c :
drop_while p (l ++ [c]) =
match drop_while p l with
| [] => if p c then [] else [c]
| r => r ++ [c]
end.
Proof.
induction l as [|d l IH]; cbn; [reflexivity|].
destruct (p d); [exact IH | reflexivity].
Qed.

(** Trailing characters dropped, by recursion from the front. *)
Lemma trim_right_cons p c l :
rev (drop_while p (rev (c :: l))) =
match rev (drop_while p (rev l)) with
| [] => if p c then [] else [c]
| r => c :: r
end.
Proof.
cbn [rev]. rewrite drop_while_snoc.
destruct (drop_while p (rev l)) as [|d r] eqn:H.
- cbn. destruct (p c); reflexivity.
- rewrite rev_app_distr. cbn [rev app].
  destruct (rev r ++ [d]) eqn:H'; [|reflexivity].
  now destruct (rev r).
Qed.

Lemma chars_TrimRight cut s :
chars (strings.TrimRight s cut)
= rev (drop_while (strings.ContainsByte cut) (rev (chars s))).
Proof.
induction s as [|c s IH]; [reflexivity|].
change (chars (String c s)) with (c :: chars s).
rewrite trim_right_cons, <- IH. cbn [strings.TrimRight].
destruct (strings.TrimRight s cut) as [|d r]; cbn.
- destruct (strings.ContainsByte cut c); reflexivity.
- reflexivity.
Qed.

(** Trimming the right end and then the left is trimming the left end and
    then the right. *)
Lemma trim_commutes p l :
drop_while p (rev (drop_while p (rev l)))
= rev (drop_while p (rev (drop_while p l))).
Proof.
induction l as [|c l IH]; [reflexivity|].
rewrite trim_right_cons. cbn [drop_while].
destruct (p c) eqn:Hc.
- rewrite <- IH.
  destruct (rev (drop_while p (rev l))) as [|d r]; [reflexivity|].
  cbn [drop_while]. now rewrite Hc.
- rewrite trim_right_cons, Hc.
  destruct (rev (drop_while p (rev l))) as [|d r]; cbn [drop_while];
    now rewrite Hc.
Qed.

Lemma cutset_separator_or_dot c :
strings.ContainsByte "./\" c = separator_or_dot c.
Proof.
unfold separator_or_dot. cbn.
destruct (Ascii.eqb c "."), (Ascii.eqb c "/"), (Ascii.eqb c "\"); reflexivity.
Qed.

Lemma cutset_slash_or_backslash c :
strings.ContainsByte "/\" c = slash_or_backslash c.
Proof.
unfold slash_or_backslash. cbn. now rewrite orb_false_r.
Qed.

Lemma chars_Trim root :
chars (strings.Trim root "./\") = trimmed (chars root).
Proof.
unfold strings.Trim, trimmed.
rewrite chars_TrimLeft, chars_TrimRight, trim_commutes.
rewrite (drop_while_ext _ _ _ cutset_separator_or_dot).
f_equal. f_equal. f_equal. apply drop_while_ext, cutset_separator_or_dot.
Qed.

Lemma HasPrefix_starts_with old : forall s,
strings.HasPrefix s old = starts_with (chars old) (chars s).
Proof.
induction old as [|a old IH]; intros [|b s]; cbn; try reflexivity.
now rewrite IH.
Qed.

Lemma Index_bounds old s : -1 <= strings.Index s old.
Proof.
induction s as [|c s IH]; cbn [strings.Index].
- destruct (strings.HasPrefix EmptyString old); lia.
- destruct (strings.HasPrefix (String c s) old); [lia|].
  destruct (strings.Index s old <? 0)%Z eqn:H; lia.
Qed.

(** [strings.Replace] with an empty replacement and a count of one removes
    the first occurrence. *)
Lemma Replace1_remove_first old s :
chars (strings.Replace1 s old EmptyString) = remove_first (chars old) (chars s).
Proof.
unfold strings.Replace1.
destruct (String.eqb_spec old EmptyString) as [->|Hne].
- cbn. now destruct (chars s).
- induction s as [|c s IH].
  + cbn. destruct old; [now contradiction Hne | reflexivity].
  + cbn [strings.Index]. change (chars (String c s)) with (c :: chars s).
    cbn [remove_first].
    change (starts_with (chars old) (c :: chars s))
      with (starts_with (chars old) (chars (String c s))).
    rewrite <- (HasPrefix_starts_with old (String c s)).
    destruct (strings.HasPrefix (String c s) old) eqn:Hp.
    * cbn [Z.ltb Z.compare Z.to_nat strings.take Nat.add].
      rewrite chars_app, chars_app, chars_drop, chars_length. reflexivity.
    * pose proof (Index_bounds old s) as Hb.
      destruct (strings.Index s old <? 0)%Z eqn:Hneg.
      -- cbn. now rewrite <- IH.
      -- apply Z.ltb_ge in Hneg.
         replace (1 + strings.Index s old <? 0)%Z with false
           by (symmetry; apply Z.ltb_ge; lia).
         replace (Z.to_nat (1 + strings.Index s old))
           with (S (Z.to_nat (strings.Index s old))) by lia.
         cbn [strings.take strings.drop Nat.add String.append].
         change (chars (String c ?x)) with (c :: chars x).
         now rewrite <- IH.
Qed.

Lemma slice_to_drop_end s k :
slice_to s (strings.len s - strings.len k)
= option_map string_of_list_ascii (drop_end (String.length k) (chars s)).
Proof.
unfold slice_to, drop_end, strings.len. rewrite chars_length.
destruct (String.length k <=? String.length s)%nat eqn:H.
- apply Nat.leb_le in H.
  replace ((0 <=? Z.of_nat (String.length s) - Z.of_nat (String.length k))
           && (Z.of_nat (String.length s) - Z.of_nat (String.length k)
               <=? Z.of_nat (String.length s))) with true
    by (symmetry; apply andb_true_iff; split; apply Z.leb_le; lia).
  cbn [option_map]. f_equal.
  rewrite skipn_rev, rev_involutive, chars_length, <- chars_take.
  unfold chars. rewrite string_of_list_ascii_of_string.
  f_equal. lia.
- apply Nat.leb_gt in H.
  replace (0 <=? Z.of_nat (String.length s) - Z.of_nat (String.length k))
    with false by (symmetry; apply Z.leb_gt; lia).
  reflexivity.
Qed.

(** ** Selection by [filepath.Ext] and by suffix *)

Lemma append_nil_r (s : string) : (s ++ EmptyString)%string = s.
Proof. induction s; cbn; congruence. Qed.

Lemma append_assoc (a b c : string) :
((a ++ b) ++ c)%string = (a ++ b ++ c)%string.
Proof. induction a; cbn; congruence. Qed.

Lemma string_of_list_ascii_app l1 l2 :
string_of_list_ascii (l1 ++ l2)
= (string_of_list_ascii l1 ++ string_of_list_ascii l2)%string.
Proof. induction l1; cbn; congruence. Qed.

Lemma starts_with_app y : forall r, starts_with y (y ++ r) = true.
Proof.
induction y as [|c y IH]; intros r; cbn; [reflexivity|].
now rewrite Ascii.eqb_refl, IH.
Qed.

Lemma starts_with_split y : forall l,
starts_with y l = true -> exists r, l = y ++ r.
Proof.
induction y as [|c y IH]; intros l H.
- now exists l.
- destruct l as [|d l]; [discriminate|]. cbn in H.
  apply andb_prop in H as [Hc Hy]. apply Ascii.eqb_eq in Hc as ->.
  destruct (IH _ Hy) as [r ->]. now exists r.
Qed.

Lemma ext_scan_plain y : forall acc r,
forallb plain y = true ->
filepath.ext_scan acc (y ++ "."%char :: r)
= String "."%char (string_of_list_ascii (rev y) ++ acc)%string.
Proof.
induction y as [|c y IH]; intros acc r H.
- reflexivity.
- cbn [forallb] in H. apply andb_prop in H as [Hc Hy].
  unfold plain in Hc. apply andb_prop in Hc as [Hs Hd].
  apply negb_true_iff in Hs, Hd.
  cbn [app filepath.ext_scan]. unfold filepath.slash, filepath.dot.
  rewrite Hs, Hd, (IH _ _ Hy).
  f_equal. cbn [rev]. now rewrite string_of_list_ascii_app, append_assoc.
Qed.

Lemma ext_scan_found r : forall acc,
filepath.ext_scan acc r = EmptyString
\/ exists y r', r = y ++ "."%char :: r' /\ forallb plain y = true.
Proof.
induction r as [|c r IH]; intros acc; [now left|].
cbn [filepath.ext_scan]. unfold filepath.slash, filepath.dot.
destruct (Ascii.eqb c "/"%char) eqn:Hs; [now left|].
destruct (Ascii.eqb c "."%char) eqn:Hd.
- right. apply Ascii.eqb_eq in Hd as ->. now exists [], r.
- destruct (IH (String c acc)) as [H | (y & r' & -> & Hy)]; [now left|].
  right. exists (c :: y), r'. split; [reflexivity|].
  cbn. unfold plain at 1. now rewrite Hs, Hd.
Qed.

(** For a dotted extension, [filepath.Ext] equals it exactly on the paths
    that end with it. *)
Lemma Ext_is_suffix_match ext path :
dotted ext = true ->
String.eqb (filepath.Ext path) ext = ends_with path ext.
Proof.
intros Hd. destruct ext as [|d e]; [discriminate|].
cbn in Hd. apply andb_prop in Hd as [Hdot He].
apply Ascii.eqb_eq in Hdot as ->.
unfold ends_with, filepath.Ext.
change (chars (String "."%char e)) with ("."%char :: chars e).
cbn [rev].
assert (Hy : forallb plain (rev (chars e)) = true).
{ apply forallb_forall. intros c Hc. apply in_rev in Hc.
  revert c Hc. now apply forallb_forall. }
assert (Hback : string_of_list_ascii (rev (rev (chars e))) = e).
{ rewrite rev_involutive. apply string_of_list_ascii_of_string. }
apply eq_true_iff_eq. rewrite String.eqb_eq. split.
- intros H.
  destruct (ext_scan_found (rev (list_ascii_of_string path)) EmptyString)
    as [H0 | (y & r' & Hr & Hp)].
  + rewrite H0 in H. discriminate.
  + fold chars in *. rewrite Hr in *. rewrite (ext_scan_plain y _ _ Hp) in H.
    injection H as Hy'. rewrite append_nil_r in Hy'.
    assert (rev (chars e) = y) as ->.
    { rewrite <- Hy'. unfold chars.
      now rewrite list_ascii_of_string_of_list_ascii, rev_involutive. }
    change (y ++ "."%char :: r') with (y ++ ["."%char] ++ r').
    rewrite app_assoc. apply starts_with_app.
- intros H. apply starts_with_split in H as [r' Hr].
  fold chars. rewrite Hr, <- app_assoc. cbn [app].
  rewrite (ext_scan_plain _ _ _ Hy), Hback.
  now rewrite append_nil_r.
Qed.

End Description.

(** * The claims *)

(** C1. A compile pass that returns an error installs nothing: the field
    [tmpls] after [ParseTemplates] is the field before it.  The same holds
    when the pass is the one of [NewViews], which then returns no registry
    at all, and when it is the one of a render with reload on, which then
    returns that error without rendering. *)
Theorem failed_pass_installs_nothing {E : Engine} :
  (forall fs st err,
      result (ParseTemplates fs) st = Done (Some err) ->
      tmpls (self (after (ParseTemplates fs) st)) = tmpls (self st))
  /\ (forall p ext r fs err,
         result (ParseTemplates fs) (fresh p ext r) = Done (Some err) ->
         snd (NewViews p ext r fs) = Done (None, Some err))
  /\ (forall fs name data st err,
         result (reparse fs) st = Done (Some err) ->
         result (ExecuteTemplate fs name data) st = Done (EmptyString, Some err)
         /\ tmpls (self (after (ExecuteTemplate fs name data) st))
            = tmpls (self st))
  /\ (forall fs data st err,
         result (reparse fs) st = Done (Some err) ->
         result (Execute fs data) st = Done (EmptyString, Some err)
         /\ tmpls (self (after (Execute fs data) st)) = tmpls (self st)).
Proof.
  split; [|split; [|split]].
  - intros fs st err H. rewrite ParseTemplates_keeps_self; [reflexivity|].
    rewrite H. discriminate.
  - intros p ext r fs err H. unfold NewViews. unfold result in H.
    destruct (ParseTemplates fs (fresh p ext r)) as [st' o]. cbn in H.
    subst o. reflexivity.
  - intros fs name data st err H.
    assert (Hs : self (after (reparse fs) st) = self st)
      by (apply reparse_keeps_self; rewrite H; discriminate).
    unfold result, after, ExecuteTemplate in *. cbn [bind M_Monad].
    destruct (reparse fs st) as [st' o]. cbn [fst snd] in *. subst o.
    cbn. now rewrite Hs.
  - intros fs data st err H.
    assert (Hs : self (after (reparse fs) st) = self st)
      by (apply reparse_keeps_self; rewrite H; discriminate).
    unfold result, after, Execute in *. cbn [bind M_Monad].
    destruct (reparse fs st) as [st' o]. cbn [fst snd] in *. subst o.
    cbn. now rewrite Hs.
Qed.

Lemma failed_pass_installs_nothing_witness :
  result (ParseTemplates broken_site)
         (registry "templates/" ".tmpl" true (Some old_collection))
  = Done (Some (TemplateError "unclosed action in layout"))
  /\ tmpls (self (after (ParseTemplates broken_site)
                        (registry "templates/" ".tmpl" true
                                  (Some old_collection))))
     = Some old_collection
  /\ result (ExecuteTemplate broken_site "foo/bar/index" tt)
            (registry "templates/" ".tmpl" true (Some old_collection))
     = Done (EmptyString, Some (TemplateError "unclosed action in layout"))
  /\ snd (NewViews "templates/" ".tmpl" true broken_site)
     = Done (None, Some (TemplateError "unclosed action in layout")).
Proof.
  destruct (@failed_pass_installs_nothing text_engine)
    as (Hpass & Hnew & Hrender & _).
  split; [reflexivity|]. split; [|split].
  - exact (Hpass broken_site
                 (registry "templates/" ".tmpl" true (Some old_collection))
                 (TemplateError "unclosed action in layout") eq_refl).
  - exact (proj1 (Hrender broken_site "foo/bar/index" tt
                          (registry "templates/" ".tmpl" true
                                    (Some old_collection))
                          (TemplateError "unclosed action in layout")
                          eq_refl)).
  - exact (Hnew "templates/" ".tmpl" true broken_site
                (TemplateError "unclosed action in layout") eq_refl).
Defined.

(** C2. [TemplateName] computes the name as described: the root trimmed of
    leading and trailing separators and dots, its first occurrence removed
    from the file path, the leading slashes and backslashes stripped, and
    exactly [len(tmplExt)] characters dropped from the end (which faults
    when fewer remain); with root [templates/] and extension [.tmpl] the
    file [templates/foo/bar/index.tmpl] is named [foo/bar/index]. *)
Theorem TemplateName_is_the_described_derivation {E : Engine} :
  (forall (v : Views) (file : string),
      TemplateName v file = Spec.derived_name (path v) (tmplExt v) file)
  /\ (forall r : bool,
         TemplateName (self (fresh "templates/" ".tmpl" r))
                      "templates/foo/bar/index.tmpl"
         = Some "foo/bar/index")
  /\ Spec.derived_name "templates/" ".tmpl" "templates/foo/bar/index.tmpl"
     = Some "foo/bar/index".
Proof.
  split; [|split].
  - intros v file. unfold TemplateName, Spec.derived_name.
    rewrite slice_to_drop_end. do 2 f_equal.
    rewrite chars_TrimLeft, Replace1_remove_first, chars_Trim.
    apply drop_while_ext, cutset_slash_or_backslash.
  - reflexivity.
  - reflexivity.
Qed.




(** C4. When [os.Lstat] fails on the root, the function literal logs the
    error and then calls [info.IsDir()] on the nil [FileInfo]: the pass,
    and [NewViews] with it, panics instead of returning the error.  On a
    root that exists but cannot be listed the pass does return the error
    and leaves the registry as it was. *)
Theorem missing_root_panics {E : Engine} :
  (forall st,
      ParseTemplates Missing st
      = ({| self := self st;
            trace := trace st ++ [Lstat (path (self st));
                                  Log (PathError "lstat" (path (self st)))] |},
         Panicked NilDereference))
  /\ (forall p ext r,
         NewViews p ext r Missing
         = ([Lstat p; Log (PathError "lstat" p)], Panicked NilDereference))
  /\ (forall st,
         ParseTemplates BadDir st
         = ({| self := self st;
               trace := trace st ++ [Lstat (path (self st));
                                     ReadDirNames (path (self st));
                                     Log (PathError "open" (path (self st)))] |},
            Done (Some (PathError "open" (path (self st)))))).
Proof.
  repeat split.
Qed.

(** C5. A render reads [v.reload] as its very first step, before any
    [Lock]: its events are not guarded by the mutex.  [Reload] and the
    installation at the end of [ParseTemplates] do take the mutex, and
    only around the write of the field; everything before the
    installation is file system, log and parser. *)
Theorem render_reads_fields_without_the_mutex {E : Engine} :
  (forall (st : State) (fs : node) (name : string) (data : Data),
      (exists evs, events (ExecuteTemplate fs name data) st = ReadReload :: evs)
      /\ (exists evs, events (Execute fs data) st = ReadReload :: evs)
      /\ guarded false (events (ExecuteTemplate fs name data) st) = false
      /\ guarded false (events (Execute fs data) st) = false)
  /\ (forall (st : State) (f : bool),
         events (Reload f) st
         = match mu (self st) with
           | Some _ => [Lock; WriteReload; Unlock]
           | None => []
           end
         /\ guarded false (events (Reload f) st) = true)
  /\ (forall (st : State) (fs : node),
         events (ParseTemplates fs) st
         = fst (pass_of st fs)
           ++ match result (ParseTemplates fs) st with
              | Done None => [Lock; WriteTmpls; Unlock]
              | _ => []
              end
         /\ forallb is_outside (fst (pass_of st fs)) = true
         /\ guarded false (events (ParseTemplates fs) st) = true).
Proof.
  assert (Hout : forall st fs, forallb is_outside (fst (pass_of st fs)) = true).
  { intros st fs. unfold pass_of, Walk. rewrite walk_run_entries.
    apply run_entries_outside. }
  split; [|split].
  - intros st fs name data.
    destruct (render_trace fs st (fun t => Template_ExecuteTemplate t name data))
      as [evs1 H1].
    destruct (render_trace fs st (fun t => Template_Execute t data))
      as [evs2 H2].
    apply (events_app (ExecuteTemplate fs name data)) in H1.
    apply (events_app (Execute fs data)) in H2.
    rewrite H1, H2. repeat split; eauto.
  - intros st f.
    assert (Hev : events (Reload f) st
                  = match mu (self st) with
                    | Some _ => [Lock; WriteReload; Unlock]
                    | None => []
                    end).
    { apply events_app. unfold after, Reload, mu_Lock. cbn.
      destruct (mu (self st)); cbn; now rewrite <- ?app_assoc, ?app_nil_r. }
    rewrite Hev. split; [reflexivity|]. now destruct (mu (self st)).
  - intros st fs. rewrite ParseTemplates_events.
    split; [reflexivity|]. split; [apply Hout|].
    rewrite guarded_outside by apply Hout.
    now destruct (result (ParseTemplates fs) st) as [[err|]|p].
Qed.

(** C6. The registry that [NewViews] returns has a non-nil [tmpls], and
    every later call of [ExecuteTemplate], [Execute], [Reload] or
    [ParseTemplates], however it ends, leaves it non-nil.  [NewViews]
    returns an error exactly when its pass returns one, and it never
    returns a registry together with an error, nor neither of them. *)
Theorem collection_never_nil_once_constructed {E : Engine} :
  (forall p ext r fs evs v,
      NewViews p ext r fs = (evs, Done (Some v, None))
      -> tmpls v <> None
         /\ forall calls,
             tmpls (self (fold_left (fun st c => perform c st) calls
                                    {| self := v; trace := evs |})) <> None)
  /\ (forall c st, tmpls (self st) <> None -> tmpls (self (perform c st)) <> None)
  /\ (forall p ext r fs err,
         snd (NewViews p ext r fs) = Done (None, Some err)
         <-> result (ParseTemplates fs) (fresh p ext r) = Done (Some err))
  /\ (forall p ext r fs v err,
         snd (NewViews p ext r fs) <> Done (Some v, Some err))
  /\ (forall p ext r fs, snd (NewViews p ext r fs) <> Done (None, None)).
Proof.
  split; [|split; [|split; [|split]]].
  - intros p ext r fs evs v H.
    assert (Hv : tmpls v <> None).
    { unfold NewViews in H.
      pose proof (ParseTemplates_run fs (fresh p ext r)) as Hrun.
      destruct (pass_of (fresh p ext r) fs) as [evs' [[t [err|]]|q]] eqn:Hp;
        rewrite Hrun in H; cbn in H; try discriminate.
      inversion H; subst. cbn. now apply pass_of_not_nil in Hp. }
    split; [exact Hv|].
    intros calls. apply performs_not_nil. exact Hv.
  - exact perform_not_nil.
  - intros p ext r fs err. unfold NewViews, result.
    destruct (ParseTemplates fs (fresh p ext r)) as [st' [[e|]|q]]; cbn;
      split; intros H; inversion H; reflexivity.
  - intros p ext r fs v err. unfold NewViews.
    destruct (ParseTemplates fs (fresh p ext r)) as [st' [[e|]|q]]; cbn;
      discriminate.
  - intros p ext r fs. unfold NewViews.
    destruct (ParseTemplates fs (fresh p ext r)) as [st' [[e|]|q]]; cbn;
      discriminate.
Qed.

Lemma collection_never_nil_once_constructed_witness :
  exists evs v,
    NewViews "templates/" ".tmpl" true site = (evs, Done (Some v, None))
    /\ tmpls v <> None
    /\ tmpls (self (perform (CallParseTemplates broken_site)
                            (perform (CallExecuteTemplate site "layout" tt)
                                     {| self := v; trace := evs |}))) <> None.
Proof.
  eexists _, _. split; [reflexivity|].
  destruct (proj1 (@collection_never_nil_once_constructed text_engine)
                  "templates/" ".tmpl" true site _ _ eq_refl) as [Hv Hcalls].
  split; [exact Hv|].
  exact (Hcalls [CallExecuteTemplate site "layout" tt;
                 CallParseTemplates broken_site]).
Defined.

(** C7 (as amended). A pass that succeeds has read and parsed, in walk
    order, exactly the non-directory entries whose [filepath.Ext] (the
    suffix of the path from the last dot of its last element) equals the
    configured extension, and has logged nothing.  When the extension is a
    dot followed by characters other than the dot and the separator, these
    are the entries whose path ends with it. *)
Theorem pass_reads_the_files_selected_by_Ext {E : Engine} :
  forall (st : State) (fs : node),
    result (ParseTemplates fs) st = Done None ->
    files_read (events (ParseTemplates fs) st)
    = map fst (sources (self st) fs)
    /\ map Some (names_parsed (events (ParseTemplates fs) st))
       = map (name_of (self st)) (sources (self st) fs)
    /\ logged (events (ParseTemplates fs) st) = []
    /\ (Spec.dotted (tmplExt (self st)) = true ->
        sources (self st) fs
        = filter (Spec.selects_by_suffix (tmplExt (self st)))
                 (entries_under (path (self st)) (lexical fs))).
Proof.
  intros st fs H. rewrite ParseTemplates_events, H.
  unfold result in H. rewrite ParseTemplates_run in H.
  destruct (pass_of st fs) as [evs [[t [err|]]|p]] eqn:Hp; try discriminate.
  apply pass_of_success in Hp as (_ & _ & Hl & Hf & Hn).
  cbn [fst]. rewrite files_read_app, names_parsed_app, logged_app, Hl, Hf.
  cbn. rewrite !app_nil_r. repeat split; [exact Hn|].
  intros Hd. unfold sources. apply filter_ext. intros [p n].
  unfold selects, Spec.selects_by_suffix. cbn [fst snd].
  now rewrite (Ext_is_suffix_match _ _ Hd).
Qed.

Lemma pass_reads_the_files_selected_by_Ext_witness :
  result (ParseTemplates site) (registry "templates/" ".tmpl" false None)
  = Done None
  /\ files_read (events (ParseTemplates site)
                        (registry "templates/" ".tmpl" false None))
     = ["templates/foo/bar/index.tmpl"; "templates/layout.tmpl"].
Proof.
  split; [reflexivity|].
  exact (proj1 (@pass_reads_the_files_selected_by_Ext text_engine
                  (registry "templates/" ".tmpl" false None) site eq_refl)).
Defined.

(** The reading of C7 by exact suffix match fails for the extension
    [.tar.gz]: the path [t/a.tar.gz] ends with it, but its [filepath.Ext]
    is [.gz], and the pass reads no file. *)
Lemma two_part_extension_selects_nothing :
  ~ reads_the_suffix_matches archive (registry "t" ".tar.gz" false None).
Proof.
  intros H. specialize (H eq_refl). discriminate H.
Qed.

(** C8. With the reload flag off, a render leaves the registry as it is
    and its result does not depend on the tree on disk: it is what the
    engine makes of the installed collection. *)
Theorem render_without_reload_ignores_disk {E : Engine} :
  forall (st : State) (fs fs' : node) (name : string) (data : Data),
    reload (self st) = false ->
    self (after (ExecuteTemplate fs name data) st) = self st
    /\ self (after (Execute fs data) st) = self st
    /\ result (ExecuteTemplate fs name data) st
       = result (ExecuteTemplate fs' name data) st
    /\ result (Execute fs data) st = result (Execute fs' data) st
    /\ (forall t, tmpls (self st) = Some t ->
          result (ExecuteTemplate fs name data) st
          = Done (Template_ExecuteTemplate t name data)
          /\ result (Execute fs data) st = Done (Template_Execute t data)).
Proof.
  intros st fs fs' name data Hr.
  unfold after, result, ExecuteTemplate, Execute.
  cbn [bind M_Monad]. rewrite !reparse_run. cbn zeta. rewrite Hr.
  unfold read_tmpls. cbn.
  destruct (tmpls (self st)) as [t|]; cbn;
    repeat (split; [reflexivity|]); intros t' Ht; inversion Ht; subst;
    split; reflexivity.
Qed.

Lemma render_without_reload_ignores_disk_witness :
  self (after (ExecuteTemplate site "foo/bar/index" tt)
              (registry "templates/" ".tmpl" false (Some old_collection)))
  = self (registry "templates/" ".tmpl" false (Some old_collection))
  /\ result (ExecuteTemplate site "foo/bar/index" tt)
            (registry "templates/" ".tmpl" false (Some old_collection))
     = Done ("old", None).
Proof.
  destruct (@render_without_reload_ignores_disk text_engine
              (registry "templates/" ".tmpl" false (Some old_collection))
              site broken_site "foo/bar/index" tt eq_refl)
    as (Hself & _ & _ & _ & Hout).
  split; [exact Hself|].
  exact (proj1 (Hout old_collection eq_refl)).
Defined.

(** C9. When the root path is itself a file with the configured
    extension, the walk hands it to the function literal, which reads it
    and calls [TemplateName] on it; the trimmed root is the whole path, so
    nothing remains after its removal and the final slice expression has a
    negative bound: the pass panics.  It also panics below a directory
    root written [mp/..]: its trimmed form [mp] is cut out of the
    extension of [a.tmpl]. *)
Theorem root_file_overruns_the_slice {E : Engine} :
  forall (b : string) (r : bool),
    NewViews "x.tmpl" ".tmpl" r (File (Bytes b))
    = ([Lstat "x.tmpl"; ReadFile "x.tmpl"], Panicked SliceBounds)
    /\ filepath.Ext "x.tmpl" = ".tmpl"
    /\ strings.TrimLeft
         (strings.Replace1 "x.tmpl" (strings.Trim "x.tmpl" "./\") EmptyString) "/\"
       = EmptyString
    /\ TemplateName (self (fresh "x.tmpl" ".tmpl" r)) "x.tmpl" = None
    /\ NewViews "mp/.." ".tmpl" r
                (Dir [("a.tmpl", File (Bytes b)); ("mp", Dir [])])
       = ([Lstat "mp/.."; ReadDirNames "mp/.."; Lstat "a.tmpl";
           ReadFile "a.tmpl"],
          Panicked SliceBounds).
Proof.
  intros b r. repeat split.
Qed.

(** C10. Two sources with the same derived name do not make a pass fail:
    the pass returns nil exactly when the mutex is allocated, the walk
    meets no error and every source can be read, named and parsed on its
    own.  After such a pass, when no source after the two holds a tree for
    the name that is not empty, the name denotes the tree of the source
    that the walk visits later if that tree is not empty; if it is empty,
    the tree of the earlier source stays, when it is not empty and no
    source between the two holds one that is not empty. *)
Theorem later_nonempty_source_wins_a_name_collision
  {E : Engine} {A : Associates E} :
  forall (st : State) (fs : node),
    (result (ParseTemplates fs) st = Done None
     <-> mu (self st) <> None
         /\ walkable (self st) fs = true
         /\ forallb (parses_alone (self st)) (sources (self st) fs) = true)
    /\ forall (n : string) (earlier between later : list (string * node))
              (p1 p2 x1 x2 : string) (t' : Template)
              (trees1 trees2 : list (string * Tree)) (tree1 tree2 : Tree),
         result (ParseTemplates fs) st = Done None ->
         tmpls (self (after (ParseTemplates fs) st)) = Some t' ->
         sources (self st) fs
         = earlier ++ (p1, File (Bytes x1)) :: between
                   ++ (p2, File (Bytes x2)) :: later ->
         TemplateName (self st) p1 = Some n ->
         TemplateName (self st) p2 = Some n ->
         parse_Parse n x1 = inr trees1 ->
         tree_of n trees1 = Some tree1 ->
         parse_Parse n x2 = inr trees2 ->
         tree_of n trees2 = Some tree2 ->
         forallb (fun e => negb (redefines (self st) n e)) later = true ->
         (IsEmptyTree tree2 = false -> Lookup t' n = Some tree2)
         /\ (IsEmptyTree tree2 = true ->
             IsEmptyTree tree1 = false ->
             forallb (fun e => negb (redefines (self st) n e)) between = true ->
             Lookup t' n = Some tree1).
Proof.
  intros st fs. split; [apply ParseTemplates_nil_iff|].
  intros n earlier between later p1 p2 x1 x2 t' trees1 trees2 tree1 tree2
         Hres Ht' Hsrc Hn1 Hn2 Hp1 Ht1 Hp2 Ht2 Hlater.
  rewrite (ParseTemplates_Lookup fs st t' n Hres Ht'), Hsrc.
  assert (H1 : trees_of (self st) (p1, File (Bytes x1)) = Some trees1).
  { unfold trees_of. cbn [fst snd]. now rewrite Hn1, Hp1. }
  assert (H2 : trees_of (self st) (p2, File (Bytes x2)) = Some trees2).
  { unfold trees_of. cbn [fst snd]. now rewrite Hn2, Hp2. }
  split.
  - intros Hne.
    change ((p1, File (Bytes x1)) :: between ++ (p2, File (Bytes x2)) :: later)
      with (((p1, File (Bytes x1)) :: between)
            ++ (p2, File (Bytes x2)) :: later).
    rewrite app_assoc.
    exact (installs_last _ _ _ _ _ _ _ _ H2 Ht2 Hne Hlater).
  - intros He Hne Hbetween.
    apply (installs_last _ _ _ _ _ _ _ _ H1 Ht1 Hne).
    rewrite forallb_app. rewrite Hbetween. cbn [forallb andb].
    rewrite Hlater, andb_true_r.
    unfold redefines. rewrite H2, Ht2, He. reflexivity.
Qed.

Lemma later_nonempty_source_wins_a_name_collision_witness :
  sources (self (registry "t" ".tmpl" false None)) collision
  = [("t/\b.tmpl", File (Bytes "first")); ("t/b.tmpl", File (Bytes "second"))]
  /\ result (ParseTemplates collision) (registry "t" ".tmpl" false None)
     = Done None
  /\ Lookup ("b", [("b", "second"); ("b", "first")]) "b" = Some "second"
  /\ tmpls (self (after (ParseTemplates empty_collision)
                        (registry "t" ".tmpl" false None)))
     = Some ("b", [("b", "first")])
  /\ Lookup ("b", [("b", "first")]) "b" = Some "first".
Proof.
  split; [reflexivity|].
  destruct (@later_nonempty_source_wins_a_name_collision
              text_engine text_engine_associates
              (registry "t" ".tmpl" false None) collision) as [Hiff Hwins].
  split.
  { apply (proj2 Hiff). split; [discriminate|]. split; reflexivity. }
  split.
  { refine (proj1 (Hwins "b" [] [] [] "t/\b.tmpl" "t/b.tmpl" "first" "second"
                         ("b", [("b", "second"); ("b", "first")])
                         [("b", "first")] [("b", "second")] "first" "second"
                         eq_refl eq_refl eq_refl eq_refl eq_refl eq_refl
                         eq_refl eq_refl eq_refl eq_refl) eq_refl). }
  split; [reflexivity|].
  destruct (@later_nonempty_source_wins_a_name_collision
              text_engine text_engine_associates
              (registry "t" ".tmpl" false None) empty_collision)
    as [_ Hstays].
  refine (proj2 (Hstays "b" [] [] [] "t/\b.tmpl" "t/b.tmpl" "first"
                        EmptyString ("b", [("b", "first")])
                        [("b", "first")] [("b", EmptyString)]
                        "first" EmptyString
                        eq_refl eq_refl eq_refl eq_refl eq_refl eq_refl
                        eq_refl eq_refl eq_refl eq_refl)
                eq_refl eq_refl eq_refl).
Defined.

(** The reading of C10 by which the later of two sources with one name
    always wins fails when the later one is empty: with [t/\b.tmpl]
    holding [first] and [t/b.tmpl] empty, the pass returns nil and the
    name [b] still denotes [first]. *)
Lemma empty_later_source_does_not_win :
  ~ later_file_wins empty_collision (registry "t" ".tmpl" false None).
Proof.
  intros H.
  destruct (H "b" [] [] [] "t/\b.tmpl" "t/b.tmpl" "first" EmptyString
              [("b", EmptyString)] EmptyString
              eq_refl eq_refl eq_refl eq_refl eq_refl eq_refl eq_refl)
    as (t' & Ht' & Hlook).
  vm_compute in Ht'. injection Ht' as <-.
  discriminate Hlook.
Qed.

(** * Auxiliary lemmas on strings, paths and passes *)

#[local] Arguments String.eqb : simpl nomatch.

(** * Further properties of the program *)

(** ** Strings and paths *)

Lemma append_length a b :
  String.length (a ++ b)%string = (String.length a + String.length b)%nat.
Proof. induction a; cbn; congruence. Qed.

Lemma take_app_exact a b : strings.take (String.length a) (a ++ b)%string = a.
Proof. induction a; cbn; [now destruct b | congruence]. Qed.

Lemma take_app_le n : forall a b,
  (n <= String.length a)%nat ->
  strings.take n (a ++ b)%string = strings.take n a.
Proof.
  induction n; intros [|c a] b H; cbn in *; try reflexivity; try lia.
  f_equal. apply IHn. lia.
Qed.

Lemma drop_app_le n : forall a b,
  (n <= String.length a)%nat ->
  strings.drop n (a ++ b)%string = (strings.drop n a ++ b)%string.
Proof.
  induction n; intros [|c a] b H; cbn in *; try reflexivity; try lia.
  apply IHn. lia.
Qed.

Lemma HasPrefix_length s p :
  strings.HasPrefix s p = true -> (String.length p <= String.length s)%nat.
Proof.
  revert s. induction p as [|a p IH]; intros [|b s] H; cbn in *; try lia;
    try discriminate.
  apply andb_prop in H as [_ H]. apply IH in H. lia.
Qed.

Lemma HasPrefix_app s p x :
  (String.length p <= String.length s)%nat ->
  strings.HasPrefix (s ++ x) p = strings.HasPrefix s p.
Proof.
  revert s. induction p as [|a p IH]; intros [|b s] H; cbn in *; try reflexivity;
    try lia.
  - now destruct x.
  - f_equal. apply IH. lia.
Qed.

Lemma HasPrefix_self_app p x : strings.HasPrefix (p ++ x) p = true.
Proof.
  induction p as [|a p IH]; cbn; [now destruct x|].
  now rewrite Ascii.eqb_refl.
Qed.

(** Where [Index] finds an occurrence, the occurrence lies within the
    string, and text appended to the string does not move it. *)
Lemma Index_app old x : forall c,
  0 <= strings.Index c old ->
  strings.Index (c ++ x) old = strings.Index c old
  /\ (Z.to_nat (strings.Index c old) + String.length old <= String.length c)%nat.
Proof.
  induction c as [|a c IH]; intros H.
  - destruct old as [|b old]; [|cbn in H; lia].
    cbn. destruct x; cbn; split; reflexivity || lia.
  - cbn [strings.Index] in *.
    destruct (strings.HasPrefix (String a c) old) eqn:Hp.
    + apply HasPrefix_length in Hp as Hlen.
      change (String a c ++ x)%string with (String a (c ++ x)).
      cbn [strings.Index].
      change (String a (c ++ x)) with (String a c ++ x)%string.
      rewrite (HasPrefix_app _ _ _ Hlen), Hp. split; [reflexivity|].
      cbn in *. lia.
    + destruct (strings.Index c old <? 0) eqn:Hneg; [lia|].
      apply Z.ltb_ge in Hneg. destruct (IH Hneg) as [Hi Hlen].
      change (String a c ++ x)%string with (String a (c ++ x)).
      cbn [strings.Index].
      change (String a (c ++ x)) with (String a c ++ x)%string.
      rewrite HasPrefix_app, Hp by (cbn; lia).
      rewrite Hi. apply Z.ltb_ge in Hneg as Hneg'. rewrite Hneg'.
      split; [reflexivity|]. cbn [String.length]. lia.
Qed.

Lemma Replace1_app c old x :
  0 <= strings.Index c old ->
  strings.Replace1 (c ++ x) old EmptyString
  = (strings.Replace1 c old EmptyString ++ x)%string.
Proof.
  intros H. unfold strings.Replace1.
  destruct (String.eqb old EmptyString); [reflexivity|].
  destruct (Index_app old x c H) as [-> Hlen].
  replace (strings.Index c old <? 0) with false
    by (symmetry; apply Z.ltb_ge; lia).
  cbn [String.append].
  rewrite take_app_le, drop_app_le by lia.
  now rewrite append_assoc.
Qed.

Lemma Index_occurs old b : forall a,
  0 <= strings.Index (a ++ old ++ b) old.
Proof.
  induction a as [|c a IH].
  - cbn [String.append]. destruct (old ++ b)%string eqn:Hs.
    + cbn. destruct old; [cbn; lia | discriminate].
    + rewrite <- Hs. cbn [strings.Index].
      assert (Hp := HasPrefix_self_app old b). rewrite Hs in Hp.
      rewrite <- Hs in *. destruct (old ++ b)%string; [discriminate|].
      cbn [strings.Index]. inversion Hs; subst. rewrite Hp. lia.
  - change (String c a ++ old ++ b)%string with (String c (a ++ old ++ b)).
    cbn [strings.Index].
    destruct (strings.HasPrefix (String c (a ++ old ++ b)) old); [lia|].
    destruct (strings.Index (a ++ old ++ b) old <? 0) eqn:Hneg; [|lia].
    apply Z.ltb_lt in Hneg. lia.
Qed.

Lemma chars_app' a b :
  list_ascii_of_string (a ++ b) = list_ascii_of_string a ++ list_ascii_of_string b.
Proof. induction a; cbn; congruence. Qed.

Lemma ext_scan_stop r : forall acc tail,
  filepath.ext_scan acc (r ++ "/"%char :: tail) = filepath.ext_scan acc r.
Proof.
  induction r as [|c r IH]; intros acc tail; [reflexivity|].
  cbn [app filepath.ext_scan].
  destruct (Ascii.eqb c filepath.slash); [reflexivity|].
  destruct (Ascii.eqb c filepath.dot); [reflexivity|]. apply IH.
Qed.

(** The extension of a path is the extension of what follows a separator. *)
Lemma Ext_after_slash c rest :
  filepath.Ext (c ++ "/" ++ rest) = filepath.Ext rest.
Proof.
  unfold filepath.Ext. rewrite chars_app'. cbn [String.append list_ascii_of_string].
  rewrite rev_app_distr. cbn [rev]. rewrite <- app_assoc. cbn [app].
  apply ext_scan_stop.
Qed.

(** The extension of a path is a suffix of it, empty or beginning with a
    dot. *)
Lemma Ext_suffix s :
  exists r0,
    s = (r0 ++ filepath.Ext s)%string
    /\ (filepath.Ext s = EmptyString
        \/ exists e, filepath.Ext s = String "." e).
Proof.
  unfold filepath.Ext.
  destruct (ext_scan_found (rev (list_ascii_of_string s)) EmptyString)
    as [H | (y & r' & Hr & Hp)].
  - rewrite H. exists s. split; [now rewrite append_nil_r | now left].
  - rewrite Hr, (ext_scan_plain y _ _ Hp), append_nil_r.
    exists (string_of_list_ascii (rev r')). split; [|right; eauto].
    apply (f_equal (@rev ascii)) in Hr. rewrite rev_involutive in Hr.
    rewrite rev_app_distr in Hr. cbn [rev] in Hr. rewrite <- app_assoc in Hr.
    cbn [app] in Hr.
    rewrite <- (string_of_list_ascii_of_string s), Hr.
    now rewrite string_of_list_ascii_app.
Qed.

Lemma TrimLeft_app_keep cut a e :
  match e with
  | EmptyString => True
  | String c _ => strings.ContainsByte cut c = false
  end ->
  strings.TrimLeft (a ++ e) cut = (strings.TrimLeft a cut ++ e)%string.
Proof.
  intros He. induction a as [|c a IH].
  - cbn. destruct e as [|d e]; [reflexivity|]. cbn. now rewrite He.
  - cbn. destruct (strings.ContainsByte cut c); [exact IH | reflexivity].
Qed.

Lemma slice_to_drops_suffix name ext :
  slice_to (name ++ ext) (strings.len (name ++ ext) - strings.len ext)
  = Some name.
Proof.
  unfold slice_to, strings.len. rewrite append_length.
  replace ((0 <=? Z.of_nat (String.length name + String.length ext)
                  - Z.of_nat (String.length ext))
           && (Z.of_nat (String.length name + String.length ext)
               - Z.of_nat (String.length ext)
               <=? Z.of_nat (String.length name + String.length ext)))%Z
    with true by (symmetry; apply andb_true_iff; split; apply Z.leb_le; lia).
  replace (Z.to_nat (Z.of_nat (String.length name + String.length ext)
                     - Z.of_nat (String.length ext)))
    with (String.length name) by lia.
  now rewrite take_app_exact.
Qed.

Lemma TrimLeft_fixed cut s n :
  strings.TrimLeft (strings.take n (strings.TrimLeft s cut)) cut
  = strings.take n (strings.TrimLeft s cut).
Proof.
  induction s as [|c s IH]; cbn.
  - now destruct n.
  - destruct (strings.ContainsByte cut c) eqn:Hc; [exact IH|].
    destruct n; [reflexivity|]. cbn. now rewrite Hc.
Qed.

Lemma TrimRight_prefix cut s :
  exists b, s = (strings.TrimRight s cut ++ b)%string.
Proof.
  induction s as [|c s [b IH]]; [now exists EmptyString|].
  cbn [strings.TrimRight].
  destruct (strings.TrimRight s cut) as [|d r] eqn:Ht.
  - destruct (strings.ContainsByte cut c).
    + now exists (String c s).
    + exists s. reflexivity.
  - exists b. cbn [String.append]. f_equal. exact IH.
Qed.

Lemma TrimLeft_suffix cut s :
  exists a, s = (a ++ strings.TrimLeft s cut)%string.
Proof.
  induction s as [|c s [a IH]]; [now exists EmptyString|].
  cbn [strings.TrimLeft]. destruct (strings.ContainsByte cut c).
  - exists (String c a). cbn [String.append]. f_equal. exact IH.
  - now exists EmptyString.
Qed.

Lemma Trim_occurs cut s x :
  0 <= strings.Index (x ++ s) (strings.Trim s cut).
Proof.
  unfold strings.Trim.
  destruct (TrimRight_prefix cut s) as [b Hb].
  destruct (TrimLeft_suffix cut (strings.TrimRight s cut)) as [a Ha].
  rewrite Hb at 1. rewrite Ha at 1.
  rewrite !append_assoc, <- append_assoc. apply Index_occurs.
Qed.

Lemma TrimRight_slash s :
  strings.TrimRight (s ++ "/") "./\" = strings.TrimRight s "./\".
Proof.
  induction s as [|c s IH]; [reflexivity|].
  cbn [String.append strings.TrimRight]. now rewrite IH.
Qed.

Lemma TrimRight_lead s :
  strings.TrimLeft (strings.TrimRight (String "/" s) "./\") "./\"
  = strings.TrimLeft (strings.TrimRight s "./\") "./\".
Proof.
  cbn [strings.TrimRight]. destruct (strings.TrimRight s "./\"); reflexivity.
Qed.

Lemma split_cons_nonempty s : filepath.split s <> [].
Proof.
  destruct s as [|c s]; cbn; [discriminate|].
  destruct (Ascii.eqb c filepath.slash); [discriminate|].
  destruct (filepath.split s); discriminate.
Qed.

Lemma split_app_slash a b :
  filepath.split (a ++ "/" ++ b) = filepath.split a ++ filepath.split b.
Proof.
  induction a as [|c a IH]; [reflexivity|].
  cbn [String.append filepath.split] in *.
  destruct (Ascii.eqb c filepath.slash).
  - cbn. now rewrite IH.
  - rewrite IH. pose proof (split_cons_nonempty a) as Hne.
    destruct (filepath.split a); [now contradiction Hne | reflexivity].
Qed.

Lemma split_no_slash s : no_slash s = true -> filepath.split s = [s].
Proof.
  unfold no_slash. induction s as [|c s IH]; cbn; [reflexivity|].
  intros H. apply andb_prop in H as [Hc H]. apply negb_true_iff in Hc.
  unfold filepath.slash. rewrite Hc, (IH H). reflexivity.
Qed.

Lemma valid_no_slash s : valid_name s = true -> no_slash s = true.
Proof. unfold valid_name. intros H. now apply andb_prop in H as [_ H]. Qed.

Lemma split_concat es :
  es <> [] -> forallb valid_name es = true ->
  filepath.split (String.concat "/" es) = es.
Proof.
  induction es as [|e es IH]; intros Hne Hv; [now contradiction Hne|].
  cbn [forallb] in Hv. apply andb_prop in Hv as [He Hv].
  destruct es as [|e' es].
  - cbn. now apply split_no_slash, valid_no_slash.
  - change (String.concat "/" (e :: e' :: es))
      with (e ++ "/" ++ String.concat "/" (e' :: es))%string.
    rewrite split_app_slash, IH by (discriminate || exact Hv).
    rewrite split_no_slash by now apply valid_no_slash. reflexivity.
Qed.

Lemma split_rooted_at lead es trail :
  es <> [] -> forallb valid_name es = true ->
  filepath.split (rooted_at lead es trail)
  = (if lead then [EmptyString] else []) ++ es
    ++ (if trail then [EmptyString] else []).
Proof.
  intros Hne Hv. unfold rooted_at.
  assert (Ht : filepath.split (String.concat "/" es
                               ++ (if trail then "/" else EmptyString))
               = es ++ (if trail then [EmptyString] else [])).
  { destruct trail.
    - change "/" with ("/" ++ EmptyString)%string.
      now rewrite split_app_slash, split_concat.
    - now rewrite append_nil_r, app_nil_r, split_concat. }
  destruct lead; cbn [String.append app]; [|exact Ht].
  cbn [filepath.split]. unfold filepath.slash. cbn. now rewrite Ht.
Qed.

Lemma clean_step_valid r stack e :
  valid_name e = true -> filepath.clean_step r stack e = e :: stack.
Proof.
  unfold valid_name, filepath.clean_step. intros H.
  apply andb_prop in H as [H _]. apply andb_prop in H as [H H3].
  apply andb_prop in H as [H1 H2].
  apply negb_true_iff in H1, H2, H3. now rewrite H1, H2, H3.
Qed.

Lemma fold_clean_step r l : forall stack,
  forallb (fun e => String.eqb e EmptyString || valid_name e) l = true ->
  fold_left (filepath.clean_step r) l stack
  = rev (filter valid_name l) ++ stack.
Proof.
  induction l as [|e l IH]; intros stack H; [reflexivity|].
  cbn [forallb] in H. apply andb_prop in H as [He H].
  cbn [fold_left filter]. rewrite IH by exact H.
  destruct (valid_name e) eqn:Hv.
  - rewrite clean_step_valid by exact Hv. cbn [rev]. now rewrite <- app_assoc.
  - rewrite orb_false_r in He. apply String.eqb_eq in He as ->. reflexivity.
Qed.

Lemma concat_snoc es name :
  es <> [] ->
  String.concat "/" (es ++ [name])
  = (String.concat "/" es ++ "/" ++ name)%string.
Proof.
  induction es as [|e es IH]; intros Hne; [now contradiction Hne|].
  destruct es as [|e' es]; [reflexivity|].
  change (String.concat "/" ((e :: e' :: es) ++ [name]))
    with (e ++ "/" ++ String.concat "/" ((e' :: es) ++ [name]))%string.
  rewrite IH by discriminate.
  change (String.concat "/" (e :: e' :: es))
    with (e ++ "/" ++ String.concat "/" (e' :: es))%string.
  now rewrite !append_assoc.
Qed.

Lemma rooted_at_snoc lead es name :
  es <> [] ->
  rooted_at lead (es ++ [name]) false
  = (rooted_at lead es false ++ "/" ++ name)%string.
Proof.
  intros Hne. unfold rooted_at. rewrite concat_snoc by exact Hne.
  now rewrite !append_nil_r, !append_assoc.
Qed.

Lemma valid_name_shape e :
  valid_name e = true ->
  exists c e', e = String c e' /\ Ascii.eqb c "/" = false.
Proof.
  destruct e as [|c e']; [discriminate|]. intros H.
  apply valid_no_slash in H. unfold no_slash in H. cbn in H.
  apply andb_prop in H as [H _]. apply negb_true_iff in H. eauto.
Qed.

Lemma concat_valid_shape es :
  es <> [] -> forallb valid_name es = true ->
  exists c s, String.concat "/" es = String c s /\ Ascii.eqb c "/" = false.
Proof.
  intros Hne Hv. destruct es as [|e es]; [now contradiction Hne|].
  cbn [forallb] in Hv. apply andb_prop in Hv as [He _].
  destruct (valid_name_shape e He) as (c & e' & -> & Hc).
  destruct es; cbn; eauto.
Qed.

Lemma filter_valid es :
  forallb valid_name es = true -> filter valid_name es = es.
Proof.
  induction es as [|e es IH]; [reflexivity|]. cbn [forallb]. intros Hv.
  apply andb_prop in Hv as [He Hv]. cbn. now rewrite He, IH.
Qed.

Lemma valid_or_empty es :
  forallb valid_name es = true ->
  forallb (fun e => String.eqb e EmptyString || valid_name e) es = true.
Proof.
  induction es as [|e es IH]; [reflexivity|]. cbn [forallb]. intros Hv.
  apply andb_prop in Hv as [He Hv]. now rewrite He, orb_true_r, IH.
Qed.

(** [filepath.Join] below a path of valid elements appends the name. *)
Lemma Join_rooted_at lead es trail name :
  es <> [] -> forallb valid_name es = true -> valid_name name = true ->
  filepath.Join (rooted_at lead es trail) name
  = rooted_at lead (es ++ [name]) false.
Proof.
  intros Hne Hv Hn.
  assert (Hsplit : filepath.split (rooted_at lead es trail ++ "/" ++ name)
                   = (if lead then [EmptyString] else []) ++ es
                     ++ (if trail then [EmptyString] else []) ++ [name]).
  { rewrite split_app_slash, split_rooted_at by assumption.
    rewrite (split_no_slash name) by now apply valid_no_slash.
    now rewrite <- !app_assoc. }
  assert (Hfold : forall r,
             fold_left (filepath.clean_step r)
                       (filepath.split (rooted_at lead es trail ++ "/" ++ name))
                       []
             = rev (es ++ [name])).
  { intros r. rewrite Hsplit, fold_clean_step, app_nil_r.
    - f_equal. rewrite !filter_app.
      rewrite (filter_valid es Hv). cbn [filter]. rewrite Hn.
      now destruct lead, trail.
    - rewrite !forallb_app. cbn [forallb]. rewrite Hn, orb_true_r.
      rewrite (valid_or_empty es Hv). now destruct lead, trail. }
  destruct (concat_valid_shape es Hne Hv) as (c & s & Hc & Hcs).
  destruct (concat_valid_shape (es ++ [name])) as (c' & s' & Hc' & Hcs').
  { now destruct es. }
  { rewrite forallb_app. cbn. now rewrite Hv, Hn. }
  unfold filepath.Join.
  assert (Hroot : exists d p, rooted_at lead es trail = String d p
                              /\ Ascii.eqb d "/" = lead).
  { unfold rooted_at. destruct lead; cbn [String.append].
    - eexists _, _. split; reflexivity.
    - rewrite Hc. cbn [String.append]. eexists _, _. split; [reflexivity|exact Hcs]. }
  destruct Hroot as (d & p & Hroot & Hd).
  rewrite Hroot. cbn [String.eqb String.append].
  cbv beta iota delta [filepath.Clean]. unfold filepath.slash. rewrite Hd.
  change (String d (p ++ String "/" name))
    with (String d p ++ "/" ++ name)%string.
  rewrite <- Hroot, Hfold, rev_involutive.
  unfold rooted_at. rewrite append_nil_r, Hc'.
  destruct lead; reflexivity.
Qed.

(** Below a path of valid elements, every entry of a tree of valid names
    other than the tree itself lies at the path, a separator and more. *)
Lemma entries_under_rooted_at n : forall lead es trail,
  es <> [] -> forallb valid_name es = true -> named n = true ->
  Forall (fun e => exists rel,
                     fst e = (rooted_at lead es false ++ "/" ++ rel)%string)
         (tl (entries_under (rooted_at lead es trail) n)).
Proof.
  induction n as [| c | | cs IH] using node_nested_ind;
    intros lead es trail Hne Hv Hn; cbn [entries_under tl];
    try constructor.
  cbn [named] in Hn. apply Forall_flat_map.
  induction IH as [|[name c] cs Hc _ IHcs]; [constructor|].
  cbn [forallb fst snd] in Hn. apply andb_prop in Hn as [Hnc Hn].
  apply andb_prop in Hnc as [Hname Hnamed].
  constructor; [|now apply IHcs].
  cbn [fst snd] in *. rewrite Join_rooted_at by assumption.
  assert (Hne' : es ++ [name] <> []) by now destruct es.
  assert (Hv' : forallb valid_name (es ++ [name]) = true).
  { rewrite forallb_app. cbn. now rewrite Hv, Hname. }
  specialize (Hc lead (es ++ [name]) false Hne' Hv' Hnamed).
  rewrite rooted_at_snoc in Hc by exact Hne.
  assert (Hhd : entries_under (rooted_at lead (es ++ [name]) false) c
                = (rooted_at lead es false ++ "/" ++ name, c)%string
                  :: tl (entries_under (rooted_at lead (es ++ [name]) false) c)).
  { rewrite <- (rooted_at_snoc lead es name Hne). now destruct c. }
  rewrite Hhd. constructor; [now exists name|].
  rewrite rooted_at_snoc by exact Hne.
  eapply Forall_impl; [|exact Hc].
  intros e [rel He].
  exists (name ++ "/" ++ rel)%string. rewrite He. now rewrite !append_assoc.
Qed.

Lemma forallb_insert_entry (P : string * node -> bool) e l :
  forallb P (insert_entry e l) = P e && forallb P l.
Proof.
  induction l as [|x l IH]; [reflexivity|]. cbn [insert_entry].
  destruct (String.leb (fst e) (fst x)); [reflexivity|].
  cbn [forallb]. rewrite IH.
  destruct (P e), (P x); reflexivity.
Qed.

Lemma forallb_sort_entries (P : string * node -> bool) l :
  forallb P (sort_entries l) = forallb P l.
Proof.
  induction l as [|x l IH]; [reflexivity|].
  cbn [sort_entries fold_right]. fold (sort_entries l).
  now rewrite forallb_insert_entry, IH.
Qed.

Lemma named_lexical n : named n = true -> named (lexical n) = true.
Proof.
  induction n as [| c | | cs IH] using node_nested_ind; intros H; try reflexivity.
  cbn [lexical named] in *. rewrite forallb_sort_entries.
  induction IH as [|[name c] cs Hc _ IHcs]; [reflexivity|].
  cbn [map forallb fst snd] in *. apply andb_prop in H as [Hnc H].
  apply andb_prop in Hnc as [Hname Hnamed].
  now rewrite Hname, Hc, IHcs.
Qed.

(** The trimmed form of a root of valid elements occurs in the root
    without its trailing separator. *)
Lemma Trim_rooted_at_occurs lead es trail :
  0 <= strings.Index (rooted_at lead es false)
                     (strings.Trim (rooted_at lead es trail) "./\").
Proof.
  assert (Ht : strings.Trim (rooted_at lead es trail) "./\"
               = strings.Trim (String.concat "/" es) "./\").
  { unfold strings.Trim, rooted_at.
    assert (H1 : strings.TrimRight
                   (String.concat "/" es ++ (if trail then "/" else EmptyString))
                   "./\"
                 = strings.TrimRight (String.concat "/" es) "./\").
    { destruct trail; [apply TrimRight_slash | now rewrite append_nil_r]. }
    destruct lead; cbn [String.append].
    - now rewrite TrimRight_lead, H1.
    - now rewrite H1. }
  rewrite Ht. unfold rooted_at. rewrite append_nil_r. apply Trim_occurs.
Qed.

Lemma bracket_app held a b :
  bracket held (a ++ b)
  = match bracket held a with
    | Some held' => bracket held' b
    | None => None
    end.
Proof.
  revert held. induction a as [|e a IH]; intros held; [reflexivity|].
  destruct e; cbn; try apply IH; destruct held; try reflexivity; apply IH.
Qed.

Lemma bracket_outside held evs :
  forallb is_outside evs = true -> bracket held evs = Some held.
Proof.
  induction evs as [|e evs IH]; intros H; [reflexivity|].
  cbn [forallb] in H. apply andb_prop in H as [He H].
  destruct e; try discriminate; cbn; now apply IH.
Qed.


(** ** Passes and renders *)

Section MoreMethods.

Context {E : Engine}.

(** The name of a path below a directory in which the trimmed root occurs. *)
Lemma TemplateName_below :
  forall (v : Views) (c rest : string),
    (0 <= strings.Index c (strings.Trim (path v) "./\"))%Z ->
    filepath.Ext (c ++ "/" ++ rest) = tmplExt v ->
    exists name,
      TemplateName v (c ++ "/" ++ rest) = Some name
      /\ (name ++ tmplExt v)%string
         = strings.TrimLeft
             (strings.Replace1 c (strings.Trim (path v) "./\") EmptyString
              ++ "/" ++ rest) "/\".
Proof.
  intros v c rest Hocc Hext.
  rewrite Ext_after_slash in Hext.
  destruct (Ext_suffix rest) as (r0 & Hrest & Hshape). rewrite Hext in *.
  unfold TemplateName. rewrite Replace1_app by exact Hocc.
  set (R := strings.Replace1 c _ _).
  assert (Hy : strings.TrimLeft (R ++ "/" ++ rest) "/\"
               = (strings.TrimLeft (R ++ "/" ++ r0) "/\" ++ tmplExt v)%string).
  { rewrite Hrest at 1.
    replace (R ++ "/" ++ r0 ++ tmplExt v)%string
      with ((R ++ "/" ++ r0) ++ tmplExt v)%string
      by (now rewrite !append_assoc).
    apply TrimLeft_app_keep.
    destruct Hshape as [-> | [e ->]]; [exact I | reflexivity]. }
  rewrite Hy. eexists. split; [apply slice_to_drops_suffix | reflexivity].
Qed.

Lemma pass_of_same st st' fs :
  path (self st) = path (self st') ->
  tmplExt (self st) = tmplExt (self st') ->
  pass_of st fs = pass_of st' fs.
Proof.
  destruct st as [[r p e t m] tr], st' as [[r' p' e' t' m'] tr'].
  cbn. intros -> ->. reflexivity.
Qed.

Lemma parse_all_same v v' l : forall t,
  path v = path v' -> tmplExt v = tmplExt v' ->
  parse_all v l t = parse_all v' l t.
Proof.
  intros t Hp He. revert t.
  induction l as [|[p n] l IH]; intros t; [reflexivity|].
  cbn [parse_all]. destruct n as [|[b|]| |es]; try reflexivity.
  assert (Hn : TemplateName v p = TemplateName v' p).
  { unfold TemplateName. now rewrite Hp, He. }
  rewrite Hn. destruct (TemplateName v' p); [|reflexivity].
  destruct (New_Parse t s b); [reflexivity | apply IH].
Qed.

Lemma render_run (k : Template -> string * option error) fs st :
  (err <- reparse fs ;;
   match err with
   | Some err => ret (EmptyString, Some err)
   | None =>
       t <- read_tmpls ;;
       match t with
       | None => lift (raise NilDereference)
       | Some t => lift (emit Render) ;; ret (k t)
       end
   end) st
  = match reparse fs st with
    | (st', Done (Some err)) => (st', Done (EmptyString, Some err))
    | (st', Done None) =>
        match tmpls (self st') with
        | Some t =>
            ({| self := self st'; trace := trace st' ++ [ReadTmpls; Render] |},
             Done (k t))
        | None =>
            ({| self := self st'; trace := trace st' ++ [ReadTmpls] |},
             Panicked NilDereference)
        end
    | (st', Panicked p) => (st', Panicked p)
    end.
Proof.
  cbn [bind M_Monad]. destruct (reparse fs st) as [st' [[err|]|p]]; try reflexivity.
  unfold read_tmpls. cbn. destruct (tmpls (self st')); cbn.
  - now rewrite <- app_assoc.
  - unfold lift. cbn. now rewrite app_nil_r.
Qed.

Lemma ParseTemplates_keeps_configuration fs st :
  path (self (after (ParseTemplates fs) st)) = path (self st)
  /\ tmplExt (self (after (ParseTemplates fs) st)) = tmplExt (self st)
  /\ mu (self (after (ParseTemplates fs) st)) = mu (self st)
  /\ reload (self (after (ParseTemplates fs) st)) = reload (self st).
Proof.
  unfold after. rewrite ParseTemplates_run.
  destruct (pass_of st fs) as [evs [[t [err|]]|p]]; cbn;
    try (repeat split; reflexivity).
  destruct (mu (self st)) eqn:Hmu; cbn; repeat split; auto.
Qed.

Lemma reparse_keeps_configuration fs st :
  path (self (after (reparse fs) st)) = path (self st)
  /\ tmplExt (self (after (reparse fs) st)) = tmplExt (self st)
  /\ mu (self (after (reparse fs) st)) = mu (self st)
  /\ reload (self (after (reparse fs) st)) = reload (self st).
Proof.
  unfold after. rewrite reparse_run. cbn zeta.
  destruct (reload (self st)) eqn:Hr; [|cbn; repeat split; auto].
  rewrite <- Hr.
  apply (ParseTemplates_keeps_configuration fs {| self := self st; trace := _ |}).
Qed.

Lemma ParseTemplates_success fs st t :
  mu (self st) <> None ->
  walkable (self st) fs = true ->
  parse_all (self st) (sources (self st) fs) (template_New "all") = Some t ->
  exists evs,
    ParseTemplates fs st
    = ({| self := set_tmpls (Some t) (self st); trace := trace st ++ evs |},
       Done None).
Proof.
  intros Hmu Hw Ht. rewrite ParseTemplates_run.
  pose proof (pass_of_succeeds st fs t Hw Ht) as H.
  destruct (pass_of st fs) as [evs r]. cbn in H. subst r.
  destruct (mu (self st)); [|now contradiction Hmu].
  eexists. reflexivity.
Qed.

Lemma bracket_ParseTemplates fs st :
  bracket false (events (ParseTemplates fs) st) = Some false.
Proof.
  rewrite ParseTemplates_events, bracket_app, bracket_outside.
  - now destruct (result (ParseTemplates fs) st) as [[err|]|p].
  - unfold pass_of, Walk. rewrite walk_run_entries. apply run_entries_outside.
Qed.

Lemma trace_ParseTemplates fs st :
  trace (after (ParseTemplates fs) st)
  = trace st ++ events (ParseTemplates fs) st.
Proof.
  rewrite ParseTemplates_events. unfold after, result.
  rewrite ParseTemplates_run.
  destruct (pass_of st fs) as [evs [[t [err|]]|p]]; cbn;
    rewrite ?app_nil_r; try reflexivity.
  destruct (mu (self st)); cbn; now rewrite ?app_nil_r.
Qed.

Lemma bracket_render (k : Template -> string * option error) fs st :
  bracket false
    (events (err <- reparse fs ;;
             match err with
             | Some err => ret (EmptyString, Some err)
             | None =>
                 t <- read_tmpls ;;
                 match t with
                 | None => lift (raise NilDereference)
                 | Some t => lift (emit Render) ;; ret (k t)
                 end
             end) st) = Some false.
Proof.
  set (st1 := {| self := self st; trace := trace st ++ [ReadReload] |}).
  assert (Hre : exists evs,
             trace (fst (reparse fs st)) = trace st ++ ReadReload :: evs
             /\ bracket false evs = Some false).
  { rewrite reparse_run. cbn zeta. fold st1. destruct (reload (self st)).
    - exists (events (ParseTemplates fs) st1). split.
      + fold (after (ParseTemplates fs) st1). rewrite trace_ParseTemplates.
        unfold st1 at 1. cbn [trace]. now rewrite <- app_assoc.
      + apply bracket_ParseTemplates.
    - exists []. split; reflexivity. }
  destruct Hre as (evs & Htr & Hb).
  match goal with |- bracket false (events ?m st) = _ => set (m0 := m) end.
  assert (Hev : exists tail,
             events m0 st = ReadReload :: evs ++ tail
             /\ bracket false tail = Some false).
  { unfold m0. unfold events, after. rewrite render_run.
    destruct (reparse fs st) as [st' [[err|]|p]]; cbn [fst] in Htr.
    - exists []. cbn [fst]. rewrite Htr, app_nil_r.
      rewrite skipn_app, skipn_all, Nat.sub_diag. split; reflexivity.
    - destruct (tmpls (self st')).
      + exists [ReadTmpls; Render]. cbn [fst trace]. rewrite Htr.
        rewrite <- app_assoc, skipn_app, skipn_all, Nat.sub_diag.
        split; reflexivity.
      + exists [ReadTmpls]. cbn [fst trace]. rewrite Htr.
        rewrite <- app_assoc, skipn_app, skipn_all, Nat.sub_diag.
        split; reflexivity.
    - exists []. cbn [fst]. rewrite Htr, app_nil_r.
      rewrite skipn_app, skipn_all, Nat.sub_diag. split; reflexivity. }
  destruct Hev as (tail & -> & Ht).
  cbn [bracket]. now rewrite bracket_app, Hb.
Qed.

(** The run up to an entry, when nothing before it fails. *)
Lemma run_entries_upto v pre e post t t1 :
  forallb quiet pre = true ->
  parse_all v (filter (selects (tmplExt v)) pre) t = Some t1 ->
  exists evs,
    logged evs = []
    /\ files_read evs = map fst (filter (selects (tmplExt v)) pre)
    /\ map Some (names_parsed evs)
       = map (name_of v) (filter (selects (tmplExt v)) pre)
    /\ run_entries (visit v) (pre ++ e :: post) (Some t)
       = match at_entry (visit v) (Some t1) e with
         | (evs', Done (a, None)) =>
             (evs ++ evs' ++ fst (run_entries (visit v) post a),
              snd (run_entries (visit v) post a))
         | (evs', r) => (evs ++ evs', r)
         end.
Proof.
  intros Hq Hp.
  pose proof (run_entries_succeeds v pre t t1 Hq Hp) as Hs.
  destruct (run_entries (visit v) pre (Some t)) as [evs r] eqn:Hrun.
  cbn in Hs. subst r.
  destruct (run_entries_success v pre t evs _ Hrun) as (_ & _ & Hl & Hf & Hn).
  exists evs. repeat split; try assumption.
  rewrite run_entries_app, Hrun. cbn [bind IO_Monad snd fst].
  rewrite run_entries_cons.
  destruct (at_entry (visit v) (Some t1) e) as [evs' [[a [err|]]|p]];
    cbn [fst snd]; reflexivity.
Qed.

Lemma ParseTemplates_fails fs st evs :
  (exists t err, pass_of st fs = (evs, Done (t, Some err))
                 /\ result (ParseTemplates fs) st = Done (Some err))
  \/ (exists p, pass_of st fs = (evs, Panicked p)
                /\ result (ParseTemplates fs) st = Panicked p) ->
  events (ParseTemplates fs) st = evs
  /\ self (after (ParseTemplates fs) st) = self st.
Proof.
  rewrite ParseTemplates_events. unfold result, after.
  rewrite ParseTemplates_run.
  intros [(t & err & -> & _) | (p & -> & _)]; cbn; now rewrite app_nil_r.
Qed.

(** A run ends on the slice panic only at a selected entry whose name
    cannot be derived. *)
Lemma run_entries_SliceBounds v l : forall t,
  snd (run_entries (visit v) l t) = Panicked SliceBounds ->
  exists e, In e l /\ selects (tmplExt v) e = true
            /\ TemplateName v (fst e) = None.
Proof.
  induction l as [|[p n] l IH]; intros t H; [discriminate|].
  rewrite run_entries_cons in H.
  assert (Hnext : forall t',
             snd (run_entries (visit v) l t') = Panicked SliceBounds ->
             exists e, In e ((p, n) :: l) /\ selects (tmplExt v) e = true
                       /\ TemplateName v (fst e) = None).
  { intros t' H'. destruct (IH _ H') as (e & He & Hs). exists e.
    split; [now right | exact Hs]. }
  destruct n as [|c| |es].
  - rewrite at_entry_visit_Missing in H. discriminate.
  - destruct (String.eqb (filepath.Ext p) (tmplExt v)) eqn:Hext.
    + rewrite (at_entry_visit_File v t p c Hext) in H.
      destruct c as [b|]; [|discriminate].
      destruct (TemplateName v p) as [name|] eqn:Hname.
      * destruct t as [t0|]; [|discriminate].
        destruct (New_Parse t0 name b) as [msg|t1]; [discriminate|].
        cbn [snd] in H. eauto.
      * exists (p, File (Bytes b)). split; [now left|].
        split; [now rewrite selects_File | exact Hname].
    + rewrite (at_entry_visit_other v t p c Hext) in H. cbn [snd] in H. eauto.
  - rewrite at_entry_visit_BadDir in H. discriminate.
  - rewrite at_entry_visit_Dir in H. cbn [snd] in H. eauto.
Qed.

End MoreMethods.

(** * Further properties *)

(** X1. A name that [TemplateName] returns has no leading slash or
    backslash, and it is what is left of the path, after the removal of
    the trimmed root and of the leading separators, without its last
    [len(tmplExt)] characters. *)
Theorem TemplateName_has_no_leading_slash {E : Engine} :
  forall (v : Views) (s name : string),
    TemplateName v s = Some name ->
    strings.TrimLeft name "/\" = name
    /\ exists tail,
         strings.TrimLeft
           (strings.Replace1 s (strings.Trim (path v) "./\") EmptyString) "/\"
         = (name ++ tail)%string
         /\ String.length tail = String.length (tmplExt v).
Proof.
  intros v s name H. unfold TemplateName, slice_to in H.
  set (y := strings.TrimLeft _ _) in *.
  destruct ((0 <=? strings.len y - strings.len (tmplExt v))
            && (strings.len y - strings.len (tmplExt v) <=? strings.len y))%Z
    eqn:Hb; [|discriminate].
  apply andb_prop in Hb as [Hb _]. apply Z.leb_le in Hb.
  inversion H; subst name. split; [apply TrimLeft_fixed|].
  exists (strings.drop (Z.to_nat (strings.len y - strings.len (tmplExt v))) y).
  unfold strings.len in *.
  set (n := Z.to_nat _).
  assert (Hn : (n + String.length (tmplExt v) = String.length y)%nat) by lia.
  clearbody n. clear Hb H. revert n Hn. generalize (String.length (tmplExt v)).
  induction y as [|c y IH]; intros k [|n] Hn; cbn in *.
  - split; [reflexivity | lia].
  - lia.
  - split; [reflexivity | lia].
  - destruct (IH k n) as [H1 H2]; [lia|]. split; [now rewrite <- H1 | exact H2].
Qed.

Lemma TemplateName_has_no_leading_slash_witness :
  TemplateName (self (registry "t" ".tmpl" false None)) "t/\b.tmpl" = Some "b"
  /\ strings.TrimLeft "b" "/\" = "b".
Proof.
  split; [reflexivity|].
  exact (proj1 (@TemplateName_has_no_leading_slash text_engine
                  (self (registry "t" ".tmpl" false None)) "t/\b.tmpl" "b"
                  eq_refl)).
Defined.

(** X2. For a path made of the trimmed root, a separator and a rest
    whose [filepath.Ext] is the configured extension, [TemplateName]
    returns a name, and the name followed by the extension is the rest
    without its leading separators: the path relative to the template
    folder without the file extension. *)
Theorem TemplateName_is_the_path_below_the_root_without_extension {E : Engine} :
  forall (v : Views) (rest : string),
    filepath.Ext rest = tmplExt v ->
    exists name,
      TemplateName v (strings.Trim (path v) "./\" ++ "/" ++ rest) = Some name
      /\ (name ++ tmplExt v)%string = strings.TrimLeft rest "/\".
Proof.
  intros v rest Hext.
  set (cf := strings.Trim (path v) "./\").
  assert (Hocc : (0 <= strings.Index cf cf)%Z).
  { pose proof (Index_occurs cf EmptyString EmptyString) as H.
    cbn [String.append] in H. now rewrite append_nil_r in H. }
  destruct (TemplateName_below v cf rest Hocc)
    as (name & Hname & Heq).
  { now rewrite Ext_after_slash. }
  exists name. split; [exact Hname|]. rewrite Heq.
  assert (HR : strings.Replace1 cf cf EmptyString = EmptyString).
  { unfold strings.Replace1. destruct (String.eqb_spec cf EmptyString) as [->|Hne];
      [reflexivity|].
    destruct cf as [|a cf']; [now contradiction Hne|].
    cbn [strings.Index].
    pose proof (HasPrefix_self_app (String a cf') EmptyString) as Hp.
    rewrite append_nil_r in Hp. rewrite Hp. cbn.
    clear. induction cf'; cbn; [reflexivity | assumption]. }
  fold cf. rewrite HR. reflexivity.
Qed.

Lemma TemplateName_is_the_path_below_the_root_without_extension_witness :
  exists name,
    TemplateName (self (registry "./templates/" ".tmpl" false None))
                 "templates/foo/bar/index.tmpl" = Some name
    /\ (name ++ ".tmpl")%string = "foo/bar/index.tmpl".
Proof.
  exact (@TemplateName_is_the_path_below_the_root_without_extension
           text_engine (self (registry "./templates/" ".tmpl" false None))
           "foo/bar/index.tmpl" eq_refl).
Defined.

(** X3. For a path made of a directory part in which the trimmed root
    occurs, a separator and a rest, with the configured extension as its
    [filepath.Ext], the final slice of [TemplateName] is within bounds:
    it returns a name, which followed by the extension is the path after
    the removal of the root from the directory part and of the leading
    separators. *)
Theorem TemplateName_is_defined_below_the_root {E : Engine} :
  forall (v : Views) (c rest : string),
    (0 <= strings.Index c (strings.Trim (path v) "./\"))%Z ->
    filepath.Ext (c ++ "/" ++ rest) = tmplExt v ->
    exists name,
      TemplateName v (c ++ "/" ++ rest) = Some name
      /\ (name ++ tmplExt v)%string
         = strings.TrimLeft
             (strings.Replace1 c (strings.Trim (path v) "./\") EmptyString
              ++ "/" ++ rest) "/\".
Proof. exact TemplateName_below. Qed.

Lemma TemplateName_is_defined_below_the_root_witness :
  exists name,
    TemplateName (self (registry "/srv/templates/" ".tmpl" false None))
                 "/srv/templates/index.tmpl" = Some name
    /\ (name ++ ".tmpl")%string = "index.tmpl".
Proof.
  refine (@TemplateName_is_defined_below_the_root
            text_engine (self (registry "/srv/templates/" ".tmpl" false None))
            "/srv/templates" "index.tmpl" _ eq_refl).
  vm_compute. discriminate.
Defined.

(** X4. When the root is a path of valid elements, with or without a
    leading and a trailing separator, and is not itself a file, and the
    names in the tree are valid, [TemplateName] returns a name for every
    source of the pass, and the pass does not end on the slice panic. *)
Theorem names_are_in_bounds_below_a_plain_root {E : Engine} :
  forall (st : State) (fs : node) (lead trail : bool) (es : list string),
    es <> [] ->
    forallb valid_name es = true ->
    path (self st) = rooted_at lead es trail ->
    named fs = true ->
    is_file fs = false ->
    (forall e, In e (sources (self st) fs) ->
               exists name, TemplateName (self st) (fst e) = Some name)
    /\ result (ParseTemplates fs) st <> Panicked SliceBounds.
Proof.
  intros st fs lead trail es Hne Hv Hpath Hnamed Hroot.
  assert (Hsrc : forall e,
             In e (entries_under (path (self st)) (lexical fs)) ->
             selects (tmplExt (self st)) e = true ->
             exists name, TemplateName (self st) (fst e) = Some name).
  { intros [p n] Hin Hsel.
    pose proof (entries_under_rooted_at (lexical fs) lead es trail Hne Hv
                  (named_lexical fs Hnamed)) as Hall.
    rewrite <- Hpath in Hall. rewrite Forall_forall in Hall.
    unfold selects in Hsel. apply andb_prop in Hsel as [Hfile Hext].
    apply String.eqb_eq in Hext. cbn [fst snd] in *.
    assert (Hhd : entries_under (path (self st)) (lexical fs)
                  = (path (self st), lexical fs)
                    :: tl (entries_under (path (self st)) (lexical fs)))
      by now destruct (lexical fs).
    rewrite Hhd in Hin. destruct Hin as [Hin | Hin].
    - exfalso. inversion Hin; subst n. now destruct fs.
    - destruct (Hall _ Hin) as [rel Heq]. cbn [fst] in Heq. subst p.
      destruct (TemplateName_below (self st) (rooted_at lead es false) rel)
        as (name & Hname & _); [|exact Hext|eauto].
      rewrite Hpath at 1. apply Trim_rooted_at_occurs. }
  split.
  - intros e He. unfold sources in He. apply filter_In in He as [Hin Hsel].
    now apply Hsrc.
  - unfold result. rewrite ParseTemplates_run.
    destruct (pass_of st fs) as [evs r] eqn:Hp.
    unfold pass_of, Walk in Hp. rewrite walk_run_entries in Hp.
    intros Hres.
    assert (Hr : r = Panicked SliceBounds).
    { destruct r as [[t [err|]]|p]; try discriminate.
      - destruct (mu (self st)); discriminate.
      - now inversion Hres. }
    subst r. apply (f_equal snd) in Hp. cbn [snd] in Hp.
    apply run_entries_SliceBounds in Hp as (e & Hin & Hsel & Hnone).
    destruct (Hsrc e Hin Hsel) as [name Hname]. congruence.
Qed.

Lemma names_are_in_bounds_below_a_plain_root_witness :
  result (ParseTemplates site) (registry "templates/" ".tmpl" false None)
  <> Panicked SliceBounds.
Proof.
  refine (proj2 (@names_are_in_bounds_below_a_plain_root text_engine
                   (registry "templates/" ".tmpl" false None) site
                   false true ["templates"] _ eq_refl eq_refl eq_refl eq_refl)).
  discriminate.
Defined.

(** X5. A pass returns nil exactly when the mutex is allocated, no entry
    of the tree makes the walk report an error and every source can be
    read, named and parsed; it then installs the collection in which the
    sources were parsed in walk order, and changes nothing else. *)
Theorem pass_succeeds_iff {E : Engine} :
  forall (st : State) (fs : node),
    (result (ParseTemplates fs) st = Done None
     <-> mu (self st) <> None
         /\ walkable (self st) fs = true
         /\ exists t, parse_all (self st) (sources (self st) fs)
                                (template_New "all") = Some t)
    /\ (forall t,
           result (ParseTemplates fs) st = Done None ->
           parse_all (self st) (sources (self st) fs) (template_New "all")
           = Some t ->
           self (after (ParseTemplates fs) st) = set_tmpls (Some t) (self st)).
Proof.
  intros st fs. unfold result, after. rewrite ParseTemplates_run.
  destruct (pass_of st fs) as [evs [[t0 [err|]]|p]] eqn:Hp.
  - split; [split|]; try discriminate.
    intros (_ & Hw & t & Ht).
    pose proof (pass_of_succeeds st fs t Hw Ht) as H. rewrite Hp in H.
    discriminate.
  - apply pass_of_success in Hp as (Hw & (t1 & -> & Ht1) & _).
    destruct (mu (self st)) eqn:Hmu; cbn [fst snd].
    + split; [split|].
      * intros _. split; [discriminate|]. split; [exact Hw|]. now exists t1.
      * reflexivity.
      * intros t _ Ht. rewrite Ht1 in Ht. now inversion Ht.
    + split; [split|]; try discriminate.
      intros (Hm & _). now contradiction Hm.
  - split; [split|]; try discriminate.
    intros (_ & Hw & t & Ht).
    pose proof (pass_of_succeeds st fs t Hw Ht) as H. rewrite Hp in H.
    discriminate.
Qed.

Lemma pass_succeeds_iff_witness :
  result (ParseTemplates site) (registry "templates/" ".tmpl" false None)
  = Done None.
Proof.
  apply (proj2 (proj1 (@pass_succeeds_iff text_engine
                         (registry "templates/" ".tmpl" false None) site))).
  split; [discriminate|]. split; [reflexivity|].
  eexists. reflexivity.
Defined.

(** X6. When the first entry in walk order that fails is a source that
    [ioutil.ReadFile] fails on, in [open] or in [read], the pass returns
    the error of [ioutil.ReadFile] for it, with that operation and the
    path of the source, without logging, after reading the sources before
    it and nothing after it, and leaves the registry as it was. *)
Theorem unreadable_source_fails_the_pass {E : Engine} :
  forall (st : State) (fs : node) (pre post : list (string * node))
         (p op : string) (t1 : Template),
    entries_under (path (self st)) (lexical fs)
    = pre ++ (p, File (Fails op)) :: post ->
    forallb quiet pre = true ->
    parse_all (self st) (filter (selects (tmplExt (self st))) pre)
              (template_New "all") = Some t1 ->
    filepath.Ext p = tmplExt (self st) ->
    result (ParseTemplates fs) st = Done (Some (PathError op p))
    /\ self (after (ParseTemplates fs) st) = self st
    /\ logged (events (ParseTemplates fs) st) = []
    /\ files_read (events (ParseTemplates fs) st)
       = map fst (filter (selects (tmplExt (self st))) pre) ++ [p].
Proof.
  intros st fs pre post p op t1 Hent Hq Hp Hext.
  destruct (run_entries_upto (self st) pre (p, File (Fails op)) post _ t1 Hq Hp)
    as (evs & Hl & Hf & _ & Hrun).
  apply String.eqb_eq in Hext.
  rewrite (at_entry_visit_File (self st) (Some t1) p (Fails op) Hext) in Hrun.
  assert (Hpass : pass_of st fs
                  = (evs ++ [Lstat p; ReadFile p],
                     Done (Some t1, Some (PathError op p)))).
  { unfold pass_of, Walk. now rewrite walk_run_entries, Hent. }
  assert (Hres : result (ParseTemplates fs) st
                 = Done (Some (PathError op p))).
  { unfold result. now rewrite ParseTemplates_run, Hpass. }
  destruct (ParseTemplates_fails fs st _ (or_introl
              (ex_intro _ _ (ex_intro _ _ (conj Hpass Hres))))) as [Hev Hself].
  rewrite Hev, logged_app, files_read_app, Hl, Hf.
  repeat split; assumption.
Qed.

Lemma unreadable_source_fails_the_pass_witness :
  result (ParseTemplates unreadable)
         (registry "t" ".tmpl" false (Some old_collection))
  = Done (Some (PathError "read" "t/b.tmpl"))
  /\ files_read (events (ParseTemplates unreadable)
                        (registry "t" ".tmpl" false (Some old_collection)))
     = ["t/a.tmpl"; "t/b.tmpl"].
Proof.
  destruct (@unreadable_source_fails_the_pass text_engine
              (registry "t" ".tmpl" false (Some old_collection)) unreadable
              (firstn 2 (entries_under "t" (lexical unreadable)))
              (skipn 3 (entries_under "t" (lexical unreadable)))
              "t/b.tmpl" "read" ("a", [("a", "A")])
              eq_refl eq_refl eq_refl eq_refl) as (Hres & _ & _ & Hread).
  split; [exact Hres | exact Hread].
Defined.

(** X7. When the first entry in walk order that fails is a source that
    the engine does not parse, the pass returns the engine's error for
    it; that source is the last one read and named, nothing is logged and
    the registry is left as it was. *)
Theorem first_parse_error_fails_the_pass {E : Engine} :
  forall (st : State) (fs : node) (pre post : list (string * node))
         (p b name msg : string) (t1 : Template),
    entries_under (path (self st)) (lexical fs)
    = pre ++ (p, File (Bytes b)) :: post ->
    forallb quiet pre = true ->
    parse_all (self st) (filter (selects (tmplExt (self st))) pre)
              (template_New "all") = Some t1 ->
    filepath.Ext p = tmplExt (self st) ->
    TemplateName (self st) p = Some name ->
    New_Parse t1 name b = inl msg ->
    result (ParseTemplates fs) st = Done (Some (TemplateError msg))
    /\ self (after (ParseTemplates fs) st) = self st
    /\ logged (events (ParseTemplates fs) st) = []
    /\ files_read (events (ParseTemplates fs) st)
       = map fst (filter (selects (tmplExt (self st))) pre) ++ [p]
    /\ map Some (names_parsed (events (ParseTemplates fs) st))
       = map (name_of (self st)) (filter (selects (tmplExt (self st))) pre)
         ++ [Some name].
Proof.
  intros st fs pre post p b name msg t1 Hent Hq Hp Hext Hname Hparse.
  destruct (run_entries_upto (self st) pre (p, File (Bytes b)) post _ t1 Hq Hp)
    as (evs & Hl & Hf & Hn & Hrun).
  apply String.eqb_eq in Hext.
  rewrite (at_entry_visit_File (self st) (Some t1) p (Bytes b) Hext),
    Hname, Hparse in Hrun.
  assert (Hpass : pass_of st fs
                  = (evs ++ [Lstat p; ReadFile p; Parse name],
                     Done (None, Some (TemplateError msg)))).
  { unfold pass_of, Walk. now rewrite walk_run_entries, Hent. }
  assert (Hres : result (ParseTemplates fs) st
                 = Done (Some (TemplateError msg))).
  { unfold result. now rewrite ParseTemplates_run, Hpass. }
  destruct (ParseTemplates_fails fs st _ (or_introl
              (ex_intro _ _ (ex_intro _ _ (conj Hpass Hres))))) as [Hev Hself].
  rewrite Hev, logged_app, files_read_app, names_parsed_app, map_app, Hl, Hf, Hn.
  repeat split; assumption.
Qed.

Lemma first_parse_error_fails_the_pass_witness :
  result (ParseTemplates broken_site)
         (registry "templates/" ".tmpl" false (Some old_collection))
  = Done (Some (TemplateError "unclosed action in layout"))
  /\ self (after (ParseTemplates broken_site)
                 (registry "templates/" ".tmpl" false (Some old_collection)))
     = self (registry "templates/" ".tmpl" false (Some old_collection)).
Proof.
  destruct (@first_parse_error_fails_the_pass text_engine
              (registry "templates/" ".tmpl" false (Some old_collection))
              broken_site
              (firstn 4 (entries_under "templates/" (lexical broken_site)))
              (skipn 5 (entries_under "templates/" (lexical broken_site)))
              "templates/layout.tmpl" "<html>{{block</html>" "layout"
              "unclosed action in layout"
              ("foo/bar/index", [("foo/bar/index", "hello")])
              eq_refl eq_refl eq_refl eq_refl eq_refl eq_refl)
    as (Hres & Hself & _).
  split; [exact Hres | exact Hself].
Defined.

(** X8. When the first entry in walk order that fails is one whose
    [os.Lstat] fails, at the root or below it, the function literal logs
    the error and the pass panics on the nil [FileInfo]; the registry is
    left as it was. *)
Theorem entry_without_FileInfo_panics_the_pass {E : Engine} :
  forall (st : State) (fs : node) (pre post : list (string * node))
         (p : string) (t1 : Template),
    entries_under (path (self st)) (lexical fs) = pre ++ (p, Missing) :: post ->
    forallb quiet pre = true ->
    parse_all (self st) (filter (selects (tmplExt (self st))) pre)
              (template_New "all") = Some t1 ->
    result (ParseTemplates fs) st = Panicked NilDereference
    /\ self (after (ParseTemplates fs) st) = self st
    /\ logged (events (ParseTemplates fs) st) = [PathError "lstat" p].
Proof.
  intros st fs pre post p t1 Hent Hq Hp.
  destruct (run_entries_upto (self st) pre (p, Missing) post _ t1 Hq Hp)
    as (evs & Hl & _ & _ & Hrun).
  rewrite at_entry_visit_Missing in Hrun.
  assert (Hpass : pass_of st fs
                  = (evs ++ [Lstat p; Log (PathError "lstat" p)],
                     Panicked NilDereference)).
  { unfold pass_of, Walk. now rewrite walk_run_entries, Hent. }
  assert (Hres : result (ParseTemplates fs) st = Panicked NilDereference).
  { unfold result. now rewrite ParseTemplates_run, Hpass. }
  destruct (ParseTemplates_fails fs st _ (or_intror
              (ex_intro _ _ (conj Hpass Hres)))) as [Hev Hself].
  rewrite Hev, logged_app, Hl. repeat split; assumption.
Qed.

Lemma entry_without_FileInfo_panics_the_pass_witness :
  result (ParseTemplates dangling) (registry "t" ".tmpl" false None)
  = Panicked NilDereference
  /\ logged (events (ParseTemplates dangling)
                    (registry "t" ".tmpl" false None))
     = [PathError "lstat" "t/gone"].
Proof.
  destruct (@entry_without_FileInfo_panics_the_pass text_engine
              (registry "t" ".tmpl" false None) dangling
              (firstn 2 (entries_under "t" (lexical dangling)))
              (skipn 3 (entries_under "t" (lexical dangling)))
              "t/gone" ("a", [("a", "A")])
              eq_refl eq_refl eq_refl) as (Hres & _ & Hlog).
  split; [exact Hres | exact Hlog].
Defined.

(** X9. What a pass returns, what it does and what it installs depend
    on the root path, the extension, the mutex and the tree only: not on
    the collection installed before, nor on the reload flag, nor on the
    events before. *)
Theorem pass_depends_on_configuration_and_tree_only {E : Engine} :
  forall (st st' : State) (fs : node),
    path (self st) = path (self st') ->
    tmplExt (self st) = tmplExt (self st') ->
    mu (self st) = mu (self st') ->
    result (ParseTemplates fs) st = result (ParseTemplates fs) st'
    /\ events (ParseTemplates fs) st = events (ParseTemplates fs) st'
    /\ (result (ParseTemplates fs) st = Done None ->
        tmpls (self (after (ParseTemplates fs) st))
        = tmpls (self (after (ParseTemplates fs) st'))).
Proof.
  intros st st' fs Hp He Hm.
  rewrite !ParseTemplates_events. unfold result, after.
  rewrite !ParseTemplates_run, <- (pass_of_same st st' fs Hp He), <- Hm.
  destruct (pass_of st fs) as [evs [[t [err|]]|p]]; cbn;
    try (repeat split; [reflexivity .. | discriminate]).
  destruct (mu (self st)); cbn; repeat split; try reflexivity; discriminate.
Qed.

Lemma pass_depends_on_configuration_and_tree_only_witness :
  result (ParseTemplates site) (registry "templates/" ".tmpl" false None)
  = result (ParseTemplates site)
           (registry "templates/" ".tmpl" true (Some old_collection))
  /\ events (ParseTemplates site) (registry "templates/" ".tmpl" false None)
     = events (ParseTemplates site)
              (registry "templates/" ".tmpl" true (Some old_collection)).
Proof.
  destruct (@pass_depends_on_configuration_and_tree_only text_engine
              (registry "templates/" ".tmpl" false None)
              (registry "templates/" ".tmpl" true (Some old_collection))
              site eq_refl eq_refl eq_refl) as (Hres & Hev & _).
  split; [exact Hres | exact Hev].
Defined.

(** X10. A second pass over the same tree returns what the first
    returned and leaves the registry as the first left it. *)
Theorem second_pass_changes_nothing {E : Engine} :
  forall (st : State) (fs : node),
    self (after (ParseTemplates fs) (after (ParseTemplates fs) st))
    = self (after (ParseTemplates fs) st)
    /\ result (ParseTemplates fs) (after (ParseTemplates fs) st)
       = result (ParseTemplates fs) st.
Proof.
  intros st fs.
  assert (Hsame : pass_of (after (ParseTemplates fs) st) fs = pass_of st fs).
  { pose proof (ParseTemplates_keeps_configuration fs st) as (Hp & He & _).
    now apply pass_of_same. }
  assert (Hmu : mu (self (after (ParseTemplates fs) st)) = mu (self st)).
  { now pose proof (ParseTemplates_keeps_configuration fs st)
      as (_ & _ & Hm & _). }
  unfold result. unfold after at 1 3.
  rewrite (ParseTemplates_run fs (after (ParseTemplates fs) st)), Hsame, Hmu.
  unfold after. rewrite !ParseTemplates_run.
  destruct (pass_of st fs) as [evs [[t [err|]]|p]]; cbn; auto.
  destruct (mu (self st)); cbn; auto.
Qed.

(** X11. No call changes the root path, the extension or the mutex of
    the registry; only [Reload] changes the reload flag, to its argument
    when the mutex is allocated, and it does not touch the collection. *)
Theorem calls_keep_the_configuration {E : Engine} :
  forall (c : call) (st : State),
    path (self (perform c st)) = path (self st)
    /\ tmplExt (self (perform c st)) = tmplExt (self st)
    /\ mu (self (perform c st)) = mu (self st)
    /\ match c with
       | CallReload f =>
           reload (self (perform c st))
           = match mu (self st) with Some _ => f | None => reload (self st) end
           /\ tmpls (self (perform c st)) = tmpls (self st)
       | _ => reload (self (perform c st)) = reload (self st)
       end.
Proof.
  intros c st. destruct c as [fs name data|fs data|f|fs]; cbn [perform].
  - unfold after, ExecuteTemplate. rewrite render_after.
    apply reparse_keeps_configuration.
  - unfold after, Execute. rewrite render_after.
    apply reparse_keeps_configuration.
  - unfold after, Reload, mu_Lock. cbn.
    destruct (mu (self st)) eqn:Hmu; cbn; repeat split; auto.
  - apply ParseTemplates_keeps_configuration.
Qed.

(** X12. With the reload flag on, on a tree that compiles, a render
    returns what the engine makes of the collection compiled from that
    tree, whatever was installed before, and leaves that collection
    installed. *)
Theorem render_with_reload_serves_the_tree_on_disk {E : Engine} :
  forall (st : State) (fs : node) (name : string) (data : Data) (t : Template),
    reload (self st) = true ->
    mu (self st) <> None ->
    walkable (self st) fs = true ->
    parse_all (self st) (sources (self st) fs) (template_New "all") = Some t ->
    result (ExecuteTemplate fs name data) st
    = Done (Template_ExecuteTemplate t name data)
    /\ result (Execute fs data) st = Done (Template_Execute t data)
    /\ tmpls (self (after (ExecuteTemplate fs name data) st)) = Some t
    /\ tmpls (self (after (Execute fs data) st)) = Some t.
Proof.
  intros st fs name data t Hr Hmu Hw Ht.
  destruct (ParseTemplates_success fs
              {| self := self st; trace := trace st ++ [ReadReload] |} t
              Hmu Hw Ht) as [evs Hrun].
  unfold result, after, ExecuteTemplate, Execute.
  rewrite !render_run, reparse_run. cbn zeta. rewrite Hr, Hrun. cbn.
  repeat split.
Qed.

Lemma render_with_reload_serves_the_tree_on_disk_witness :
  result (ExecuteTemplate site "foo/bar/index" tt)
         (registry "templates/" ".tmpl" true (Some old_collection))
  = Done ("hello", None).
Proof.
  exact (proj1 (@render_with_reload_serves_the_tree_on_disk text_engine
                  (registry "templates/" ".tmpl" true (Some old_collection))
                  site "foo/bar/index" tt
                  ("layout", [("layout", "<html>{{block}}</html>");
                              ("foo/bar/index", "hello")])
                  eq_refl ltac:(discriminate) eq_refl eq_refl)).
Defined.

(** X13. The registry that [NewViews] returns holds the path, the
    extension and the flag it was given, a new mutex, and the collection
    in which the sources of the tree were parsed in walk order; and
    [NewViews] returns such a registry whenever the tree compiles. *)
Theorem NewViews_returns_the_compiled_registry {E : Engine} :
  forall (p ext : string) (r : bool) (fs : node),
    (forall evs v,
        NewViews p ext r fs = (evs, Done (Some v, None)) ->
        exists t,
          v = {| reload := r; path := p; tmplExt := ext;
                 tmpls := Some t; mu := Some NewMutex |}
          /\ walkable (self (fresh p ext r)) fs = true
          /\ parse_all (self (fresh p ext r))
                       (sources (self (fresh p ext r)) fs)
                       (template_New "all") = Some t)
    /\ (forall t,
           walkable (self (fresh p ext r)) fs = true ->
           parse_all (self (fresh p ext r)) (sources (self (fresh p ext r)) fs)
                     (template_New "all") = Some t ->
           snd (NewViews p ext r fs)
           = Done (Some {| reload := r; path := p; tmplExt := ext;
                           tmpls := Some t; mu := Some NewMutex |}, None)).
Proof.
  intros p ext r fs. split.
  - intros evs v H. unfold NewViews in H.
    rewrite ParseTemplates_run in H.
    destruct (pass_of (fresh p ext r) fs) as [evs' [[t0 [err|]]|q]] eqn:Hp;
      cbn in H; try discriminate.
    apply pass_of_success in Hp as (Hw & (t1 & -> & Ht1) & _).
    inversion H; subst. exists t1. repeat split; assumption.
  - intros t Hw Ht. unfold NewViews.
    destruct (ParseTemplates_success fs (fresh p ext r) t) as [evs Hrun];
      try assumption; [discriminate|].
    rewrite Hrun. reflexivity.
Qed.

Lemma NewViews_returns_the_compiled_registry_witness :
  snd (NewViews "templates/" ".tmpl" false site)
  = Done (Some {| reload := false; path := "templates/"; tmplExt := ".tmpl";
                  tmpls := Some ("layout",
                                 [("layout", "<html>{{block}}</html>");
                                  ("foo/bar/index", "hello")]);
                  mu := Some NewMutex |}, None).
Proof.
  exact (proj2 (@NewViews_returns_the_compiled_registry text_engine
                  "templates/" ".tmpl" false site)
               ("layout", [("layout", "<html>{{block}}</html>");
                           ("foo/bar/index", "hello")])
               eq_refl eq_refl).
Defined.

(** X14. Every method leaves the mutex as it found it: started with the
    mutex free, it never locks it twice without unlocking, never unlocks
    it when free, and ends with it free, also when a render runs a pass
    and however the method ends. *)
Theorem every_call_releases_the_mutex_it_takes {E : Engine} :
  forall (st : State) (fs : node) (name : string) (data : Data) (f : bool),
    bracket false (events (ExecuteTemplate fs name data) st) = Some false
    /\ bracket false (events (Execute fs data) st) = Some false
    /\ bracket false (events (ParseTemplates fs) st) = Some false
    /\ bracket false (events (Reload f) st) = Some false.
Proof.
  intros st fs name data f. split; [|split; [|split]].
  - apply (bracket_render (fun t => Template_ExecuteTemplate t name data)).
  - apply (bracket_render (fun t => Template_Execute t data)).
  - apply bracket_ParseTemplates.
  - assert (Hev : events (Reload f) st
                  = match mu (self st) with
                    | Some _ => [Lock; WriteReload; Unlock]
                    | None => []
                    end).
    { apply events_app. unfold after, Reload, mu_Lock. cbn.
      destruct (mu (self st)); cbn; now rewrite <- ?app_assoc, ?app_nil_r. }
    rewrite Hev. now destruct (mu (self st)).
Qed.

(** X15. After a pass that returned nil, a source whose derived name no
    other source holds a tree for, neither as its own name nor in a
    [define], is found under its derived name in the installed
    collection, with the tree that its own text holds for the name,
    empty or not. *)
Theorem source_with_a_name_of_its_own_is_addressable
  {E : Engine} {A : Associates E} :
  forall (st : State) (fs : node) (t' : Template)
         (pre post : list (string * node)) (p x n : string)
         (trees : list (string * Tree)) (tree : Tree),
    result (ParseTemplates fs) st = Done None ->
    tmpls (self (after (ParseTemplates fs) st)) = Some t' ->
    sources (self st) fs = pre ++ (p, File (Bytes x)) :: post ->
    TemplateName (self st) p = Some n ->
    parse_Parse n x = inr trees ->
    tree_of n trees = Some tree ->
    forallb (fun e => negb (mentions (self st) n e)) (pre ++ post) = true ->
    Lookup t' n = Some tree.
Proof.
  intros st fs t' pre post p x n trees tree Hres Ht' Hsrc Hn Hp Ht Hother.
  rewrite (ParseTemplates_Lookup fs st t' n Hres Ht'), Hsrc.
  rewrite forallb_app in Hother. apply andb_prop in Hother as [Hpre Hpost].
  rewrite installs_app, (installs_untouched _ _ _ _ Hpre).
  change ((p, File (Bytes x)) :: post) with ([(p, File (Bytes x))] ++ post).
  rewrite installs_app, (installs_untouched _ _ _ _ Hpost).
  unfold installs, trees_of. cbn [fold_left fst snd].
  now rewrite Hn, Hp, Ht.
Qed.

Lemma source_with_a_name_of_its_own_is_addressable_witness :
  Lookup ("layout", [("layout", "<html>{{block}}</html>");
                     ("foo/bar/index", "hello")])
         "foo/bar/index"
  = Some "hello".
Proof.
  exact (@source_with_a_name_of_its_own_is_addressable
           text_engine text_engine_associates
           (registry "templates/" ".tmpl" false None) site
           ("layout", [("layout", "<html>{{block}}</html>");
                       ("foo/bar/index", "hello")])
           [] [("templates/layout.tmpl", File (Bytes "<html>{{block}}</html>"))]
           "templates/foo/bar/index.tmpl" "hello" "foo/bar/index"
           [("foo/bar/index", "hello")] "hello"
           eq_refl eq_refl eq_refl eq_refl eq_refl eq_refl eq_refl).
Defined.

(** X16. After [Reload(false)] a render serves the installed collection
    without looking at the tree; after [Reload(true)] it serves the
    collection compiled from the tree, when the tree compiles. *)
Theorem reload_toggle_decides_the_next_render {E : Engine} :
  forall (st : State) (fs : node) (name : string) (data : Data),
    mu (self st) <> None ->
    (forall t,
        tmpls (self st) = Some t ->
        result (ExecuteTemplate fs name data) (after (Reload false) st)
        = Done (Template_ExecuteTemplate t name data))
    /\ (forall t,
           walkable (self st) fs = true ->
           parse_all (self st) (sources (self st) fs) (template_New "all")
           = Some t ->
           result (ExecuteTemplate fs name data) (after (Reload true) st)
           = Done (Template_ExecuteTemplate t name data)).
Proof.
  intros st fs name data Hmu.
  assert (Hafter : forall f,
             exists tr, after (Reload f) st
                        = {| self := set_reload f (self st); trace := tr |}).
  { intros f. unfold after, Reload, mu_Lock. cbn.
    destruct (mu (self st)); [|now contradiction Hmu]. cbn. eauto. }
  split.
  - intros t Ht. destruct (Hafter false) as [tr ->].
    unfold result, ExecuteTemplate. rewrite render_run, reparse_run. cbn.
    now rewrite Ht.
  - intros t Hw Ht. destruct (Hafter true) as [tr ->].
    destruct (ParseTemplates_success fs
                {| self := set_reload true (self st);
                   trace := tr ++ [ReadReload] |} t) as [evs Hrun].
    + exact Hmu.
    + exact Hw.
    + cbn [self]. rewrite <- Ht. apply parse_all_same; reflexivity.
    + unfold result, ExecuteTemplate. rewrite render_run, reparse_run.
      cbn [self trace reload set_reload]. rewrite Hrun. reflexivity.
Qed.

Lemma reload_toggle_decides_the_next_render_witness :
  result (ExecuteTemplate site "foo/bar/index" tt)
         (after (Reload false)
                (registry "templates/" ".tmpl" true (Some old_collection)))
  = Done ("old", None)
  /\ result (ExecuteTemplate site "foo/bar/index" tt)
            (after (Reload true)
                   (registry "templates/" ".tmpl" false (Some old_collection)))
     = Done ("hello", None).
Proof.
  split.
  - exact (proj1 (@reload_toggle_decides_the_next_render text_engine
                    (registry "templates/" ".tmpl" true (Some old_collection))
                    site "foo/bar/index" tt ltac:(discriminate))
                 old_collection eq_refl).
  - exact (proj2 (@reload_toggle_decides_the_next_render text_engine
                    (registry "templates/" ".tmpl" false (Some old_collection))
                    site "foo/bar/index" tt ltac:(discriminate))
                 ("layout", [("layout", "<html>{{block}}</html>");
                             ("foo/bar/index", "hello")])
                 eq_refl eq_refl).
Defined.

(** ** The earlier [ParseTemplates] *)

Section EarlierPass.

Context {E : Engine}.

Variable template_ParseFiles : node -> list string -> string + Template.

Lemma at_entry_collect v files p n :
  at_entry (collect v) files (p, n)
  = match n with
    | Missing =>
        ([Lstat p; Log (PathError "lstat" p)], Panicked NilDereference)
    | File _ =>
        ([Lstat p],
         Done (if String.eqb (filepath.Ext p) (tmplExt v)
               then files ++ [p] else files, None))
    | BadDir =>
        ([Lstat p; ReadDirNames p; Log (PathError "open" p)],
         Done (files, Some (PathError "open" p)))
    | Dir _ => ([Lstat p; ReadDirNames p], Done (files, None))
    end.
Proof.
  destruct n as [|c| |es]; try reflexivity.
  unfold at_entry, collect. cbn.
  destruct (String.eqb (filepath.Ext p) (tmplExt v)); reflexivity.
Qed.

Lemma run_entries_collect v l : forall files,
  match snd (run_entries (collect v) l files) with
  | Done (files', None) =>
      files' = files ++ map fst (filter (selects (tmplExt v)) l)
      /\ forallb quiet l = true
  | Done (_, Some _) => True
  | Panicked p => p = NilDereference
  end
  /\ files_read (fst (run_entries (collect v) l files)) = []
  /\ names_parsed (fst (run_entries (collect v) l files)) = [].
Proof.
  induction l as [|[p n] l IH]; intros files.
  - cbn. now rewrite app_nil_r.
  - rewrite run_entries_cons, at_entry_collect. cbn [filter forallb].
    destruct n as [|c| |es]; try (cbn; now auto).
    rewrite selects_File.
    destruct (String.eqb (filepath.Ext p) (tmplExt v)).
    + specialize (IH (files ++ [p])).
      destruct (run_entries (collect v) l (files ++ [p]))
        as [evs [[f' [err|]]|q]]; cbn [fst snd] in *;
        rewrite ?files_read_app, ?names_parsed_app;
        destruct IH as (H1 & -> & ->); repeat split; try assumption.
      * destruct H1 as [-> _]. cbn [map fst]. now rewrite <- app_assoc.
      * now destruct H1.
    + specialize (IH files).
      destruct (run_entries (collect v) l files)
        as [evs [[f' [err|]]|q]]; cbn [fst snd] in *;
        rewrite ?files_read_app, ?names_parsed_app;
        destruct IH as (H1 & -> & ->); repeat split; try assumption.
      * now destruct H1.
      * now destruct H1.
Qed.

Lemma ParseTemplates_earlier_run fs st :
  ParseTemplates_earlier template_ParseFiles fs st =
  match Walk (path (self st)) fs (collect (self st)) [] with
  | (evs, Done (files, None)) =>
      match template_ParseFiles fs files with
      | inl msg =>
          ({| self := self st; trace := trace st ++ evs |},
           Done (Some (TemplateError msg)))
      | inr t =>
          match mu (self st) with
          | Some _ =>
              ({| self := set_tmpls (Some t) (self st);
                  trace := trace st ++ evs ++ [Lock; WriteTmpls; Unlock] |},
               Done None)
          | None =>
              ({| self := self st; trace := trace st ++ evs |},
               Panicked NilDereference)
          end
      end
  | (evs, Done (_, Some err)) =>
      ({| self := self st; trace := trace st ++ evs |}, Done (Some err))
  | (evs, Panicked p) =>
      ({| self := self st; trace := trace st ++ evs |}, Panicked p)
  end.
Proof.
  unfold ParseTemplates_earlier.
  cbn [bind M_Monad get_self lift].
  destruct (Walk _ fs _ _) as [evs [[files [err|]]|p]]; cbn [fst snd];
    try reflexivity.
  destruct (template_ParseFiles fs files) as [msg|t]; [reflexivity|].
  unfold mu_Lock. cbn [bind M_Monad get_self self].
  destruct (mu (self st)); cbn; [|now rewrite app_nil_r].
  now rewrite <- !app_assoc.
Qed.


(** X17. The earlier [ParseTemplates] hands to [template.ParseFiles] the
    paths of the same sources, in the same order, as the later one
    parses; its walk reads no file and derives no name; it installs the
    collection only when the walk and the engine succeed, and otherwise
    leaves the registry as it was; its only panic is the nil
    dereference. *)
Theorem earlier_pass_collects_the_same_sources :
  forall (st : State) (fs : node),
    match result (ParseTemplates_earlier template_ParseFiles fs) st with
    | Done None =>
        walkable (self st) fs = true
        /\ exists t,
             template_ParseFiles fs (map fst (sources (self st) fs)) = inr t
             /\ self (after (ParseTemplates_earlier template_ParseFiles fs) st)
                = set_tmpls (Some t) (self st)
    | Done (Some _) => self (after (ParseTemplates_earlier template_ParseFiles fs) st) = self st
    | Panicked p =>
        p = NilDereference
        /\ self (after (ParseTemplates_earlier template_ParseFiles fs) st) = self st
    end
    /\ files_read (events (ParseTemplates_earlier template_ParseFiles fs) st) = []
    /\ names_parsed (events (ParseTemplates_earlier template_ParseFiles fs) st) = [].
Proof.
  intros st fs.
  pose proof (run_entries_collect (self st)
                (entries_under (path (self st)) (lexical fs)) []) as Hrun.
  rewrite <- walk_run_entries in Hrun.
  fold (Walk (path (self st)) fs (collect (self st)) []) in Hrun.
  assert (Hev : forall evs,
             trace (fst (ParseTemplates_earlier template_ParseFiles fs st)) = trace st ++ evs ->
             events (ParseTemplates_earlier template_ParseFiles fs) st = evs).
  { intros evs Htr. now apply events_app. }
  unfold result, after. rewrite ParseTemplates_earlier_run in *.
  destruct (Walk (path (self st)) fs (collect (self st)) [])
    as [evs [[files [err|]]|q]]; cbn [fst snd] in *.
  - destruct Hrun as (_ & Hf & Hn). rewrite (Hev evs eq_refl).
    repeat split; assumption.
  - destruct Hrun as ((-> & Hq) & Hf & Hn). cbn [app] in *.
    fold (sources (self st) fs) in *.
    destruct (template_ParseFiles fs _) as [msg|t] eqn:Hparse.
    + rewrite (Hev evs eq_refl). repeat split; assumption.
    + destruct (mu (self st)) eqn:Hmu; cbn [fst snd self trace] in *.
      * rewrite (Hev _ eq_refl).
        rewrite files_read_app, names_parsed_app, Hf, Hn.
        repeat split; try assumption. now exists t.
      * rewrite (Hev evs eq_refl). repeat split; assumption.
  - destruct Hrun as (-> & Hf & Hn). rewrite (Hev evs eq_refl).
    repeat split; assumption.
Qed.

End EarlierPass.
